(** * b58uuid: the fixed-width Base58 codec of [src/base58.ts]

    A shallow embedding of the two exported functions [encode] and
    [decode] of the Base58 module, together with the two lookup tables
    they read, and the properties of the codec: bounds, error
    behaviour, the two round trips and order preservation. The UUID
    text layer and the public functions of [src/index.ts] follow, in
    the module [Index].

    Conventions of the embedding:
    - a [BigInt] is a [Z]; [/] and [%] on [BigInt] truncate towards
      zero, so they are [Z.quot] and [Z.rem];
    - a byte of a [Uint8Array] or [Buffer] is a [Z] in [0, 256);
    - a JavaScript string is the list of its UTF-16 code units, each an
      [N], so that [s.length] is [length s] and [s.charCodeAt(i)] is the
      [i]-th element;
    - a [throw] is the [Throw] result, with one constructor of [Error]
      per [throw] statement of the source. *)

From Stdlib Require Import ZArith NArith Lia String Ascii List.
From stdpp Require Import base list.
From Equations Require Import Equations.

Local Open Scope Z_scope.

(** ** Strings *)

Abbreviation jsstring := (list N).

(** The code units of an ASCII string literal. *)
Definition str (s : string) : jsstring :=
  map N_of_ascii (list_ascii_of_string s).

(** [s[i]] for a number [i]: [undefined] ([None]) out of range. *)
Definition charAt (s : jsstring) (i : Z) : option N :=
  if i <? 0 then None else s !! Z.to_nat i.

(** ** Results and errors *)

Inductive Error : Type :=
| InputLengthError (got : nat)
    (* `Input must be exactly 16 bytes, got ${data.length}` *)
| EmptyStringError
    (* 'Empty or invalid Base58 string' *)
| Base58LengthError (got : nat)
    (* `Invalid Base58 length: expected 22, got ${b58.length}` *)
| CharCodeError (pos : nat) (ch : N)
    (* `Invalid character at position ${i}: ${b58[i]}` *)
| Base58CharError (pos : nat) (ch : N)
    (* `Invalid Base58 character at position ${i}: ${b58[i]}` *)
| OverflowError
    (* 'Overflow: value exceeds maximum UUID value' *)
| TypeError.
    (* BigInt(undefined), were the table read out of range *)

Inductive Result (A : Type) : Type :=
| Ok (a : A)
| Throw (e : Error).
Arguments Ok {A} a.
Arguments Throw {A} e.

(** The failure kinds of the specification, and the kind of each
    [throw] of the source. *)
Inductive ErrorKind : Type :=
| InvalidLength
| InvalidFormat
| InvalidCharacter
| Overflow.

Definition kind (e : Error) : option ErrorKind :=
  match e with
  | InputLengthError _ => Some InvalidLength
  | EmptyStringError => Some InvalidFormat
  | Base58LengthError _ => Some InvalidLength
  | CharCodeError _ _ => Some InvalidCharacter
  | Base58CharError _ _ => Some InvalidCharacter
  | OverflowError => Some Overflow
  | TypeError => None
  end.

(** The position and the character an error message names. *)
Definition offender (e : Error) : option (nat * N) :=
  match e with
  | CharCodeError i c | Base58CharError i c => Some (i, c)
  | _ => None
  end.

(** ** Constants and lookup tables *)

Definition ALPHABET : jsstring :=
  str "123456789ABCDEFGHJKLMNPQRSTUVWXYZabcdefghijkmnopqrstuvwxyz".

(** [for (let i = 0; i < ALPHABET.length; i++)
      REVERSE_ALPHABET[ALPHABET.charCodeAt(i)] = i;]
    A store outside a typed array is ignored, as is stdpp's insert. *)
Fixpoint fill_reverse (i : nat) (alphabet : jsstring) (table : list Z) : list Z :=
  match alphabet with
  | [] => table
  | c :: rest => fill_reverse (S i) rest (<[N.to_nat c := Z.of_nat i]> table)
  end.

(** [new Uint8Array(256)], [fill(255)], then the loop. *)
Definition REVERSE_ALPHABET : list Z :=
  fill_reverse 0 ALPHABET (replicate 256 255).

Definition BASE58 : Z := 58.
Definition MAX_UUID : Z := 0xffffffffffffffffffffffffffffffff.

(** ** encode *)

(** [let num = 0n; for (i < 16) num = (num << 8n) | BigInt(bytes[i]);]
    run over the sixteen bytes of a buffer whose length was checked. *)
Definition bytesToInteger (bytes : list Z) : Z :=
  fold_left (fun num b => Z.lor (Z.shiftl num 8) b) bytes 0.

(** [while (num > 0n) { result.push(Number(num % BASE58)); num = num / BASE58; }] *)
Equations integerToDigits (num : Z) (result : list Z) : list Z
  by wf (Z.to_nat (Z.log2 (2 * num))) lt :=
  integerToDigits num result with Z_gt_dec num 0 := {
    | left _ => integerToDigits (Z.quot num BASE58) (result ++ [Z.rem num BASE58])
    | right _ => result }.
Next Obligation.
  unfold BASE58. rewrite Z.quot_div_nonneg by lia.
  assert (Hle : 2 * (num / 58) <= num).
  { pose proof (Z.mul_div_le num 58 ltac:(lia)).
    pose proof (Z.div_pos num 58 ltac:(lia) ltac:(lia)). lia. }
  rewrite (Z.log2_double num) by lia.
  pose proof (Z.log2_nonneg num) as Hnn.
  destruct (Z.eq_dec (num / 58) 0) as [->|Hne].
  - change (Z.log2 (2 * 0)) with 0. lia.
  - pose proof (Z.log2_le_mono (2 * (num / 58)) num Hle) as Hmono.
    pose proof (Z.log2_nonneg (2 * (num / 58))). lia.
Qed.

(** [while (result.length < 22) result.unshift(0);] *)
Equations pad22 (result : list Z) : list Z
  by wf (22 - length result)%nat lt :=
  pad22 result with lt_dec (length result) 22 := {
    | left _ => pad22 (0 :: result)
    | right _ => result }.
Next Obligation. simpl. lia. Qed.

(** [result.map(i => ALPHABET[i]).join('')]: [join] writes nothing for
    [undefined]. *)
Definition join_symbols (result : list Z) : jsstring :=
  flat_map (fun i => match charAt ALPHABET i with
                     | Some c => [c]
                     | None => []
                     end) result.

Definition encode (data : list Z) : Result jsstring :=
  if negb (length data =? 16)%nat then Throw (InputLengthError (length data))
  else
    let num := bytesToInteger data in
    let result := integerToDigits num [] in
    let result := reverse result in
    let result := pad22 result in
    Ok (join_symbols result).

(** ** decode *)

(** The body of [for (let i = 0; i < b58.length; i++)], on the
    characters from position [i] on. *)
Fixpoint decode_loop (i : nat) (b58 : jsstring) (num : Z) : Result Z :=
  match b58 with
  | [] => Ok num
  | charCode :: rest =>
      if (255 <? charCode)%N then Throw (CharCodeError i charCode)
      else
        match REVERSE_ALPHABET !! N.to_nat charCode with
        | None => Throw TypeError
        | Some digit =>
            if digit =? 255 then Throw (Base58CharError i charCode)
            else
              let num := num * BASE58 + digit in
              if num >? MAX_UUID then Throw OverflowError
              else decode_loop (S i) rest num
        end
  end.

(** [for (i < 16) { bytes.unshift(Number(num & 0xFFn)); num = num >> 8n; }] *)
Fixpoint integerToBytes_loop (n : nat) (num : Z) (bytes : list Z) : list Z :=
  match n with
  | O => bytes
  | S n' => integerToBytes_loop n' (Z.shiftr num 8) (Z.land num 0xFF :: bytes)
  end.

Definition integerToBytes (num : Z) : list Z :=
  integerToBytes_loop 16 num [].

Definition decode (b58 : jsstring) : Result (list Z) :=
  if (length b58 =? 0)%nat then Throw EmptyStringError
  else if negb (length b58 =? 22)%nat then Throw (Base58LengthError (length b58))
  else
    match decode_loop 0 b58 0 with
    | Throw e => Throw e
    | Ok num => Ok (integerToBytes num)
    end.

(** ** Notions the properties are stated with *)

(** The digit a character stands for, as [decode] reads it: the two
    guards of the loop body around the table lookup. *)
Definition digit_of (c : N) : option Z :=
  if (255 <? c)%N then None
  else
    match REVERSE_ALPHABET !! N.to_nat c with
    | Some d => if d =? 255 then None else Some d
    | None => None
    end.

(** The error [decode] raises for a character that is no digit. *)
Definition char_error (i : nat) (c : N) : Error :=
  if (255 <? c)%N then CharCodeError i c else Base58CharError i c.

(** A digit of base [B]; a byte; a Base58 digit value. *)
Definition in_range (B : Z) (d : Z) : Prop := 0 <= d < B.
Definition is_byte (b : Z) : Prop := in_range 256 b.
Definition is_digit (d : Z) : Prop := in_range BASE58 d.

(** Positional value in base [B], most significant digit first, of the
    digits [ds] read after an accumulator already holding [acc]. *)
Definition positional (B : Z) (acc : Z) (ds : list Z) : Z :=
  fold_left (fun a d => a * B + d) ds acc.

(** The running value of the accumulator of [decode] after the digits
    [ds], starting from [acc]. *)
Definition value_from (acc : Z) (ds : list Z) : Z :=
  positional BASE58 acc ds.

(** The big-endian numeric value of a byte buffer. *)
Definition be_value (bytes : list Z) : Z :=
  positional 256 0 bytes.

(** The digits [encode] holds before it maps them to symbols. *)
Definition digits22 (num : Z) : list Z :=
  pad22 (reverse (integerToDigits num [])).

(** [s] spells the digits [ds]: each character is the symbol [decode]
    reads as the digit at the same position. *)
Definition spells (s : jsstring) (ds : list Z) : Prop :=
  Forall2 (fun c d => digit_of c = Some d) s ds.

(** [s < t] on JavaScript strings: lexicographic on the code units. *)
Fixpoint str_ltb (s t : jsstring) : bool :=
  match s, t with
  | _, [] => false
  | [], _ :: _ => true
  | x :: s', y :: t' => (x <? y)%N || ((x =? y)%N && str_ltb s' t')
  end.

(** The checks on the two tables that the proofs read off. *)
Definition check_reverse : bool :=
  forallb (fun n =>
    match digit_of (N.of_nat n) with
    | Some d =>
        (0 <=? d) && (d <? BASE58) &&
        match charAt ALPHABET d with
        | Some c => (c =? N.of_nat n)%N
        | None => false
        end
    | None => true
    end) (seq 0 256).

Definition check_alphabet : bool :=
  forallb (fun k =>
    match ALPHABET !! k with
    | Some c =>
        match digit_of c with
        | Some d => d =? Z.of_nat k
        | None => false
        end
    | None => false
    end) (seq 0 58).

Fixpoint increasing (s : jsstring) : bool :=
  match s with
  | x :: ((y :: _) as rest) => (x <? y)%N && increasing rest
  | _ => true
  end.

(** ** The UUID text layer and the public functions ([src/index.ts]) *)

(** A function that returns or throws, with the thrown value typed. *)
Inductive Outcome (E A : Type) : Type :=
| Return (a : A)
| Raise (e : E).
Arguments Return {E A} a.
Arguments Raise {E A} e.

(** The plain [Error]s that reach the public functions: those of the
    Base58 module and one constructor per [throw new Error] of
    [parseUUID] and [stringifyUUID]. *)
Inductive PlainError : Type :=
| Base58Error (e : Error)
| UUIDLengthError (got : nat)
    (* `Invalid UUID length: expected 32 hex characters, got ${cleanUUID.length}` *)
| UUIDFormatError
    (* 'Invalid UUID format: must contain only hexadecimal characters' *)
| HexByteError (pos : nat) (hexByte : jsstring)
    (* `Invalid hex byte at position ${i}: ${hexByte}` *)
| BytesArrayError (got : nat).
    (* `Invalid bytes array: expected 16 bytes, got ${bytes?.length || 0}` *)

(** The two exported error classes, with the fields of [B58UUIDError]:
    the string the message quotes and the optional [originalError]. *)
Inductive B58UUIDError : Type :=
| InvalidUUIDError (uuidStr : jsstring) (originalError : option PlainError)
| InvalidB58Error (b58Str : jsstring) (originalError : option PlainError).

(** [s.substring(start, end)]: the bounds are clamped to the length and
    swapped when out of order. *)
Definition substring (s : jsstring) (start end_ : nat) : jsstring :=
  take (Nat.max start end_ - Nat.min start end_) (drop (Nat.min start end_) s).

(** [s.padStart(targetLength, c)] for a one-character pad string. *)
Definition padStart (s : jsstring) (targetLength : nat) (c : N) : jsstring :=
  replicate (targetLength - length s) c ++ s.

(** A store [a[i] = v] into a [Uint8Array] or [Buffer]: [v] wraps to a
    byte, and a store outside the array is ignored. *)
Definition setByte (a : list Z) (i : nat) (v : Z) : list Z :=
  <[i := v mod 256]> a.

(** A read [a[i]] used as an operand of [&]: [undefined] counts as 0. *)
Definition getByte (a : list Z) (i : nat) : Z :=
  default 0 (a !! i).

(** [uuidStr.replace(/-/g, '')] *)
Definition removeHyphens (s : jsstring) : jsstring :=
  List.filter (fun c => negb (c =? 45)%N) s.

(** [/^[0-9a-f]{32}$/.test(s)] *)
Definition isLowerHex (c : N) : bool :=
  ((48 <=? c) && (c <=? 57) || (97 <=? c) && (c <=? 102))%N.

Definition lowerHex32_test (s : jsstring) : bool :=
  (length s =? 32)%nat && forallb isLowerHex s.

(** [parseInt(s, 16)], with [None] for [NaN]: leading white space is
    skipped, then a sign and a [0x] or [0X] prefix, and the longest run
    of hexadecimal digits is read. The result is the integer before it
    is rounded to a Number; the two differ only from 2^53 on. *)
Definition isStrWhiteSpace (c : N) : bool :=
  existsb (N.eqb c)
    [9; 10; 11; 12; 13; 32; 160; 5760; 8232; 8233; 8239; 8287; 12288; 65279]%N
  || ((8192 <=? c) && (c <=? 8202))%N.

Fixpoint trimStart (s : jsstring) : jsstring :=
  match s with
  | c :: rest => if isStrWhiteSpace c then trimStart rest else s
  | [] => []
  end.

Definition radixDigit16 (c : N) : option Z :=
  if ((48 <=? c) && (c <=? 57))%N then Some (Z.of_N c - 48)
  else if ((97 <=? c) && (c <=? 102))%N then Some (Z.of_N c - 87)
  else if ((65 <=? c) && (c <=? 70))%N then Some (Z.of_N c - 55)
  else None.

Fixpoint readDigits16 (s : jsstring) (acc : option Z) : option Z :=
  match s with
  | [] => acc
  | c :: rest =>
      match radixDigit16 c with
      | Some d => readDigits16 rest (Some (16 * default 0 acc + d))
      | None => acc
      end
  end.

Definition parseInt16 (s : jsstring) : option Z :=
  let S := trimStart s in
  let sign := match S with 45%N :: _ => -1 | _ => 1 end in
  let S := match S with
           | c :: rest => if (c =? 43)%N || (c =? 45)%N then rest else S
           | [] => S
           end in
  let S := match S with
           | 48%N :: x :: rest => if (x =? 120)%N || (x =? 88)%N then rest else S
           | _ => S
           end in
  match readDigits16 S None with
  | None => None
  | Some mathInt => Some (sign * mathInt)
  end.

(** [n.toString(16)] for a non-negative integer [n]. *)
Definition hexDigit (d : Z) : N :=
  default 0%N (str "0123456789abcdef" !! Z.to_nat d).

Equations toString16 (n : Z) : jsstring by wf (Z.to_nat (Z.log2 n)) lt :=
  toString16 n with Z_lt_dec n 16 := {
    | left _ => [hexDigit n]
    | right _ => toString16 (n / 16) ++ [hexDigit (n mod 16)] }.
Next Obligation.
  assert (Hq : 1 <= n / 16) by (apply Z.div_le_lower_bound; lia).
  assert (Hle : 2 * (n / 16) <= n).
  { pose proof (Z.mul_div_le n 16 ltac:(lia)). lia. }
  pose proof (Z.log2_le_mono (2 * (n / 16)) n Hle) as Hmono.
  rewrite (Z.log2_double (n / 16)) in Hmono by lia.
  pose proof (Z.log2_nonneg (n / 16)). lia.
Qed.

Module Index.

(** The two functions imported from the Base58 module. *)
Definition base58Encode : list Z -> Result jsstring := encode.
Definition base58Decode : jsstring -> Result (list Z) := decode.

(** [generateUUIDv4], on the sixteen bytes [randomBytes(16)] returned. *)
Definition generateUUIDv4 (randomBytes16 : list Z) : list Z :=
  let bytes := randomBytes16 in
  let bytes := setByte bytes 6 (Z.lor (Z.land (getByte bytes 6) 0x0f) 0x40) in
  let bytes := setByte bytes 8 (Z.lor (Z.land (getByte bytes 8) 0x3f) 0x80) in
  bytes.

(** The [for] loop of [parseUUID], from index [i] on, [n] rounds. *)
Fixpoint parseUUID_loop (n i : nat) (cleanUUID : jsstring) (bytes : list Z)
  : Outcome PlainError (list Z) :=
  match n with
  | O => Return bytes
  | S n' =>
      let hexByte := substring cleanUUID (i * 2) (i * 2 + 2) in
      match parseInt16 hexByte with
      | None => Raise (HexByteError i hexByte)
      | Some byteValue =>
          parseUUID_loop n' (S i) cleanUUID (setByte bytes i byteValue)
      end
  end.

(** [parseUUID]; [toLowerCase] is [String.prototype.toLowerCase]. The
    [catch] clause rethrows every [Error], which is all that is thrown. *)
Definition parseUUID (toLowerCase : jsstring -> jsstring) (uuidStr : jsstring)
  : Outcome PlainError (list Z) :=
  let cleanUUID := toLowerCase (removeHyphens uuidStr) in
  if negb (length cleanUUID =? 32)%nat
  then Raise (UUIDLengthError (length cleanUUID))
  else if negb (lowerHex32_test cleanUUID) then Raise UUIDFormatError
  else parseUUID_loop 16 0 cleanUUID (replicate 16 0).

Definition stringifyUUID (bytes : list Z) (includeHyphens : bool)
  : Outcome PlainError jsstring :=
  if negb (length bytes =? 16)%nat then Raise (BytesArrayError (length bytes))
  else
    let hex := flat_map (fun b => padStart (toString16 b) 2 48%N) bytes in
    if includeHyphens
    then Return (substring hex 0 8 ++ [45%N] ++ substring hex 8 12 ++ [45%N]
                 ++ substring hex 12 16 ++ [45%N] ++ substring hex 16 20
                 ++ [45%N] ++ drop 20 hex)
    else Return hex.

Definition encode (toLowerCase : jsstring -> jsstring) (uuidStr : jsstring)
  : Outcome B58UUIDError jsstring :=
  match parseUUID toLowerCase uuidStr with
  | Raise error => Raise (InvalidUUIDError uuidStr (Some error))
  | Return bytes =>
      match base58Encode bytes with
      | Throw error => Raise (InvalidUUIDError uuidStr (Some (Base58Error error)))
      | Ok b58 => Return b58
      end
  end.

Definition decode (b58 : jsstring) : Outcome B58UUIDError jsstring :=
  match base58Decode b58 with
  | Throw error => Raise (InvalidB58Error b58 (Some (Base58Error error)))
  | Ok buffer =>
      match stringifyUUID buffer true with
      | Raise error => Raise (InvalidB58Error b58 (Some error))
      | Return uuid => Return uuid
      end
  end.

(** [generate], on the bytes drawn from the random source. *)
Definition generate (randomBytes16 : list Z) : Result jsstring :=
  base58Encode (generateUUIDv4 randomBytes16).

End Index.

(** The restriction of [toLowerCase] to ASCII strings: the letters A to
    Z move to a to z and every other code unit stays. *)
Definition lowerUnit (c : N) : N :=
  if ((65 <=? c) && (c <=? 90))%N then (c + 32)%N else c.

Definition isAscii (c : N) : Prop := (c < 128)%N.

Definition ascii_lowering (toLowerCase : jsstring -> jsstring) : Prop :=
  forall s, Forall isAscii s -> toLowerCase s = map lowerUnit s.

(** A stand-in for [toLowerCase] that is right on ASCII strings. *)
Definition asciiToLowerCase (s : jsstring) : jsstring := map lowerUnit s.

(** The value of a hexadecimal digit, and the bytes a string of
    hexadecimal digits spells, two digits to a byte. *)
Definition hexValue (c : N) : Z := default 0 (radixDigit16 c).

Fixpoint bytesOfHex (s : jsstring) : list Z :=
  match s with
  | a :: b :: rest => (16 * hexValue a + hexValue b) :: bytesOfHex rest
  | _ => []
  end.

(** The canonical 8-4-4-4-12 layout of 32 characters. *)
Definition hyphenate (hex : jsstring) : jsstring :=
  take 8 hex ++ [45%N] ++ take 4 (drop 8 hex) ++ [45%N]
  ++ take 4 (drop 12 hex) ++ [45%N] ++ take 4 (drop 16 hex) ++ [45%N]
  ++ drop 20 hex.

(** The 32 hexadecimal digits of 16 bytes, two to a byte. *)
Definition hexOfBytes (bytes : list Z) : jsstring :=
  flat_map (fun b => [hexDigit (b / 16); hexDigit (b mod 16)]) bytes.

(** A hexadecimal digit of either case. *)
Definition isHexDigit (c : N) : bool :=
  match radixDigit16 c with Some _ => true | None => false end.

(** Closed instances of the side conditions. *)
Ltac bytes_ok :=
  repeat (constructor; [unfold is_byte, in_range; lia|]); constructor.

Ltac spells_ok :=
  repeat (constructor; [vm_compute; reflexivity|]); constructor.

(** * Properties *)

(** ** The tables *)

Lemma check_reverse_ok : check_reverse = true.
Proof. vm_compute. reflexivity. Qed.

Lemma check_alphabet_ok : check_alphabet = true.
Proof. vm_compute. reflexivity. Qed.

Lemma ALPHABET_length : length ALPHABET = 58%nat.
Proof. reflexivity. Qed.

Lemma REVERSE_ALPHABET_length : length REVERSE_ALPHABET = 256%nat.
Proof. vm_compute. reflexivity. Qed.

Lemma ALPHABET_increasing : increasing ALPHABET = true.
Proof. vm_compute. reflexivity. Qed.

Lemma digit_of_le_255 (c : N) (d : Z) : digit_of c = Some d -> (c <= 255)%N.
Proof.
  unfold digit_of. destruct (255 <? c)%N eqn:E; [discriminate|].
  intros _. apply N.ltb_ge in E. exact E.
Qed.

Lemma digit_of_symbol (c : N) (d : Z) :
  digit_of c = Some d -> is_digit d /\ charAt ALPHABET d = Some c.
Proof.
  intros Hd. pose proof (digit_of_le_255 _ _ Hd) as Hc.
  pose proof check_reverse_ok as Hall. unfold check_reverse in Hall.
  rewrite forallb_forall in Hall.
  specialize (Hall (N.to_nat c)).
  rewrite N2Nat.id, Hd in Hall.
  assert (Hin : In (N.to_nat c) (seq 0 256)) by (apply in_seq; lia).
  specialize (Hall Hin).
  apply andb_prop in Hall as [Hrange Hsym].
  apply andb_prop in Hrange as [Hlo Hhi].
  split; [unfold is_digit, in_range, BASE58 in *; lia|].
  destruct (charAt ALPHABET d) as [c'|]; [|discriminate].
  apply N.eqb_eq in Hsym. congruence.
Qed.

Lemma symbol_digit_of (c : N) (d : Z) :
  is_digit d -> charAt ALPHABET d = Some c -> digit_of c = Some d.
Proof.
  intros Hd Hc. unfold charAt in Hc.
  destruct (d <? 0) eqn:E; [discriminate|].
  pose proof check_alphabet_ok as Hall. unfold check_alphabet in Hall.
  rewrite forallb_forall in Hall.
  specialize (Hall (Z.to_nat d)). rewrite Hc in Hall.
  assert (Hin : In (Z.to_nat d) (seq 0 58))
    by (apply in_seq; unfold is_digit, in_range, BASE58 in Hd; lia).
  specialize (Hall Hin).
  destruct (digit_of c) as [d'|]; [|discriminate].
  apply Z.eqb_eq in Hall. unfold is_digit, in_range, BASE58 in Hd. f_equal. lia.
Qed.

Lemma symbol_exists (d : Z) :
  is_digit d -> exists c, charAt ALPHABET d = Some c.
Proof.
  intros Hd. unfold charAt.
  destruct (d <? 0) eqn:E; [unfold is_digit, in_range, BASE58 in Hd; lia|].
  apply lookup_lt_is_Some_2. rewrite ALPHABET_length.
  unfold is_digit, in_range, BASE58 in Hd. lia.
Qed.

Lemma in_alphabet_digit_of (c : N) :
  c ∈ ALPHABET <-> exists d, digit_of c = Some d.
Proof.
  split.
  - intros Hin. apply list_elem_of_lookup in Hin as [k Hk].
    pose proof (lookup_lt_Some _ _ _ Hk) as Hlt. rewrite ALPHABET_length in Hlt.
    exists (Z.of_nat k).
    apply symbol_digit_of; [unfold is_digit, in_range, BASE58 in *; lia|].
    unfold charAt. destruct (Z.of_nat k <? 0) eqn:E; [lia|].
    rewrite Nat2Z.id. exact Hk.
  - intros [d Hd]. apply digit_of_symbol in Hd as [_ Hsym].
    unfold charAt in Hsym. destruct (d <? 0); [discriminate|].
    apply list_elem_of_lookup. eauto.
Qed.

(** ** Positional notation *)

Section Positional.
Variable B : Z.
Hypothesis HB : 1 < B.

Lemma positional_app (acc : Z) (xs ys : list Z) :
  positional B acc (xs ++ ys) = positional B (positional B acc xs) ys.
Proof. unfold positional. apply fold_left_app. Qed.

Lemma positional_acc (ds : list Z) :
  forall acc, positional B acc ds
              = acc * B ^ Z.of_nat (length ds) + positional B 0 ds.
Proof.
  induction ds as [|d ds IH]; intros acc.
  - simpl. lia.
  - change (positional B acc (d :: ds)) with (positional B (acc * B + d) ds).
    change (positional B 0 (d :: ds)) with (positional B (0 * B + d) ds).
    rewrite (IH (acc * B + d)), (IH (0 * B + d)).
    rewrite length_cons, Nat2Z.inj_succ, Z.pow_succ_r by lia. ring.
Qed.

Lemma positional_cons (d : Z) (ds : list Z) :
  positional B 0 (d :: ds) = d * B ^ Z.of_nat (length ds) + positional B 0 ds.
Proof.
  change (positional B 0 (d :: ds)) with (positional B (0 * B + d) ds).
  rewrite positional_acc. f_equal; ring.
Qed.

Lemma positional_snoc (acc : Z) (ds : list Z) (d : Z) :
  positional B acc (ds ++ [d]) = positional B acc ds * B + d.
Proof. rewrite positional_app. reflexivity. Qed.

Lemma positional_bound (ds : list Z) :
  Forall (in_range B) ds -> 0 <= positional B 0 ds < B ^ Z.of_nat (length ds).
Proof.
  induction 1 as [|d ds Hd _ IH].
  - simpl. lia.
  - rewrite positional_cons, length_cons, Nat2Z.inj_succ, Z.pow_succ_r by lia.
    unfold in_range in Hd.
    assert (0 < B ^ Z.of_nat (length ds)) by (apply Z.pow_pos_nonneg; lia).
    nia.
Qed.

Lemma positional_mono (ds : list Z) :
  forall acc, 0 <= acc -> Forall (in_range B) ds -> acc <= positional B acc ds.
Proof.
  induction ds as [|d ds IH]; intros acc Hacc Hds.
  - simpl. lia.
  - inversion Hds as [|? ? Hd Hrest]; subst. unfold in_range in Hd.
    change (positional B acc (d :: ds)) with (positional B (acc * B + d) ds).
    assert (acc <= acc * B + d) by nia.
    specialize (IH (acc * B + d) ltac:(lia) Hrest). lia.
Qed.

Lemma positional_inj (xs : list Z) :
  forall ys, length xs = length ys ->
             Forall (in_range B) xs -> Forall (in_range B) ys ->
             positional B 0 xs = positional B 0 ys -> xs = ys.
Proof.
  induction xs as [|x xs IH]; intros [|y ys] Hlen Hxs Hys Heq;
    try discriminate; [reflexivity|].
  inversion Hxs as [|? ? Hx Hxs']; inversion Hys as [|? ? Hy Hys']; subst.
  injection Hlen as Hlen.
  rewrite !positional_cons, <- Hlen in Heq.
  pose proof (positional_bound xs Hxs') as Bx.
  pose proof (positional_bound ys Hys') as By. rewrite <- Hlen in By.
  unfold in_range in Hx, Hy.
  assert (x = y) by nia. subst y.
  f_equal. apply IH; auto. lia.
Qed.

Lemma positional_zeros (k : nat) (ds : list Z) :
  positional B 0 (replicate k 0 ++ ds) = positional B 0 ds.
Proof.
  induction k as [|k IH]; [reflexivity|].
  simpl replicate. rewrite <- app_comm_cons.
  change (positional B 0 (0 :: replicate k 0 ++ ds))
    with (positional B (0 * B + 0) (replicate k 0 ++ ds)).
  exact IH.
Qed.
End Positional.

(** ** Bytes and integers *)

Lemma lor_shiftl_byte (a b : Z) :
  is_byte b -> Z.lor (Z.shiftl a 8) b = a * 256 + b.
Proof.
  intros Hb. unfold is_byte, in_range in Hb.
  rewrite Z.shiftl_mul_pow2 by lia. change (2 ^ 8) with 256.
  assert (Hland : Z.land (a * 256) b = 0).
  { apply Z.bits_inj'. intros n Hn.
    rewrite Z.land_spec, Z.bits_0.
    destruct (Z.lt_ge_cases n 8) as [Hlt|Hge].
    - change 256 with (2 ^ 8). rewrite Z.mul_pow2_bits_low by lia. reflexivity.
    - destruct (Z.eq_dec b 0) as [->|Hnz].
      + rewrite Z.bits_0. apply andb_false_r.
      + rewrite (Z.bits_above_log2 b n); [apply andb_false_r|lia|].
        assert (Z.log2 b < 8) by (apply Z.log2_lt_pow2; lia). lia. }
  rewrite <- Z.lxor_lor by exact Hland.
  symmetry. apply Z.add_nocarry_lxor. exact Hland.
Qed.

Lemma bytesToInteger_positional (data : list Z) :
  Forall is_byte data ->
  forall acc,
    fold_left (fun num b => Z.lor (Z.shiftl num 8) b) data acc
    = positional 256 acc data.
Proof.
  induction 1 as [|b data Hb _ IH]; intros acc; [reflexivity|].
  simpl. rewrite lor_shiftl_byte by exact Hb. apply IH.
Qed.

Lemma bytesToInteger_be_value (data : list Z) :
  Forall is_byte data -> bytesToInteger data = be_value data.
Proof. intros H. apply bytesToInteger_positional. exact H. Qed.

Lemma integerToBytes_loop_length (n : nat) :
  forall num acc,
    length (integerToBytes_loop n num acc) = (n + length acc)%nat.
Proof.
  induction n as [|n IH]; intros num acc; simpl; [reflexivity|].
  rewrite IH. simpl. lia.
Qed.

Lemma land_0xFF (num : Z) : Z.land num 0xFF = num mod 256.
Proof. change 0xFF with (Z.ones 8). rewrite Z.land_ones by lia. reflexivity. Qed.

Lemma integerToBytes_loop_bytes (n : nat) :
  forall num acc,
    Forall is_byte acc -> Forall is_byte (integerToBytes_loop n num acc).
Proof.
  induction n as [|n IH]; intros num acc Hacc; simpl; [exact Hacc|].
  apply IH. constructor; [|exact Hacc].
  rewrite land_0xFF. unfold is_byte, in_range. apply Z.mod_pos_bound. lia.
Qed.

Lemma integerToBytes_loop_value (n : nat) :
  forall num acc a,
    positional 256 a (integerToBytes_loop n num acc)
    = positional 256 (a * 256 ^ Z.of_nat n + num mod 256 ^ Z.of_nat n) acc.
Proof.
  induction n as [|n IH]; intros num acc a.
  - simpl. rewrite Z.mod_1_r. f_equal. lia.
  - simpl integerToBytes_loop. rewrite IH.
    change (positional 256 ?x (?b :: acc)) with (positional 256 (x * 256 + b) acc).
    f_equal. rewrite land_0xFF, Z.shiftr_div_pow2 by lia. change (2 ^ 8) with 256.
    rewrite Nat2Z.inj_succ, Z.pow_succ_r by lia.
    rewrite (Z.rem_mul_r num 256 (256 ^ Z.of_nat n)) by lia. ring.
Qed.

Lemma integerToBytes_length (num : Z) : length (integerToBytes num) = 16%nat.
Proof. unfold integerToBytes. rewrite integerToBytes_loop_length. reflexivity. Qed.

Lemma integerToBytes_bytes (num : Z) : Forall is_byte (integerToBytes num).
Proof. apply integerToBytes_loop_bytes. constructor. Qed.

Lemma be_value_integerToBytes (num : Z) :
  0 <= num <= MAX_UUID -> be_value (integerToBytes num) = num.
Proof.
  intros Hnum. unfold be_value, integerToBytes.
  rewrite integerToBytes_loop_value. simpl positional.
  change (256 ^ Z.of_nat 16) with (MAX_UUID + 1).
  rewrite Z.mod_small by lia. lia.
Qed.

Lemma be_value_bound (data : list Z) :
  length data = 16%nat -> Forall is_byte data -> 0 <= be_value data <= MAX_UUID.
Proof.
  intros Hlen Hbytes.
  pose proof (positional_bound 256 ltac:(lia) data Hbytes) as Hb.
  rewrite Hlen in Hb. change (256 ^ Z.of_nat 16) with (MAX_UUID + 1) in Hb.
  unfold be_value. lia.
Qed.

Lemma be_value_inj (xs ys : list Z) :
  length xs = length ys -> Forall is_byte xs -> Forall is_byte ys ->
  be_value xs = be_value ys -> xs = ys.
Proof.
  unfold be_value. intros Hlen Hxs Hys Heq.
  exact (positional_inj 256 ltac:(lia) xs ys Hlen Hxs Hys Heq).
Qed.

Lemma integerToBytes_be_value (data : list Z) :
  length data = 16%nat -> Forall is_byte data ->
  integerToBytes (be_value data) = data.
Proof.
  intros Hlen Hbytes.
  pose proof (be_value_bound data Hlen Hbytes) as Hbound.
  pose proof (be_value_integerToBytes (be_value data) Hbound) as Hval.
  pose proof (integerToBytes_length (be_value data)) as Hlen'.
  pose proof (integerToBytes_bytes (be_value data)) as Hbytes'.
  generalize dependent (integerToBytes (be_value data)).
  intros l Hval Hlen' Hbytes'.
  apply be_value_inj; [congruence|assumption..].
Qed.

(** ** Digits *)

Lemma MAX_UUID_lt_pow22 : MAX_UUID < BASE58 ^ 22.
Proof. apply Z.ltb_lt. vm_compute. reflexivity. Qed.

Lemma pow21_le_MAX_UUID : BASE58 ^ 21 <= MAX_UUID.
Proof. apply Z.leb_le. vm_compute. reflexivity. Qed.

(** The [while] loop of [encode], unfolded once. *)
Lemma integerToDigits_step (num : Z) (result : list Z) :
  integerToDigits num result
  = if num >? 0
    then integerToDigits (Z.quot num BASE58) (result ++ [Z.rem num BASE58])
    else result.
Proof.
  rewrite integerToDigits_equation_1.
  destruct (Z_gt_dec num 0) as [Hgt|Hle]; simpl.
  - apply Z.gtb_gt in Hgt. rewrite Hgt. reflexivity.
  - destruct (num >? 0) eqn:E; [apply Z.gtb_gt in E; lia|reflexivity].
Qed.

Lemma integerToDigits_spec (num : Z) (acc : list Z) :
  0 <= num ->
  exists l, integerToDigits num acc = acc ++ l
            /\ Forall is_digit l
            /\ value_from 0 (reverse l) = num
            /\ forall k : nat, num < BASE58 ^ Z.of_nat k -> (length l <= k)%nat.
Proof.
  funelim (integerToDigits num acc); intros Hnn.
  - rewrite Z.quot_div_nonneg, Z.rem_mod_nonneg in * by (unfold BASE58; lia).
    assert (Hq : 0 <= num / BASE58) by (apply Z.div_pos; unfold BASE58; lia).
    destruct (H Hq) as (l & Hl & Hdig & Hval & Hlen).
    exists (num mod BASE58 :: l). repeat split.
    + rewrite Hl, <- app_assoc. reflexivity.
    + constructor; [|exact Hdig].
      unfold is_digit, in_range. apply Z.mod_pos_bound. reflexivity.
    + rewrite reverse_cons. unfold value_from in *.
      rewrite positional_snoc, Hval.
      pose proof (Z.div_mod num BASE58 ltac:(discriminate)). lia.
    + intros [|k] Hk.
      * change (BASE58 ^ Z.of_nat 0) with 1 in Hk. lia.
      * simpl length. apply le_n_S, Hlen.
        rewrite Nat2Z.inj_succ, Z.pow_succ_r in Hk by lia.
        apply Z.div_lt_upper_bound; [reflexivity|exact Hk].
  - exists []. repeat split.
    + rewrite app_nil_r. reflexivity.
    + constructor.
    + simpl. lia.
    + intros k _. simpl. lia.
Qed.

(** The padding loop of [encode], unfolded once, and in closed form. *)
Lemma pad22_step (result : list Z) :
  pad22 result
  = if (length result <? 22)%nat then pad22 (0 :: result) else result.
Proof.
  rewrite pad22_equation_1.
  destruct (lt_dec (length result) 22) as [Hlt|Hge]; simpl.
  - apply Nat.ltb_lt in Hlt. rewrite Hlt. reflexivity.
  - destruct (length result <? 22)%nat eqn:E;
      [apply Nat.ltb_lt in E; lia|reflexivity].
Qed.

Lemma pad22_replicate (result : list Z) :
  pad22 result = replicate (22 - length result) 0 ++ result.
Proof.
  funelim (pad22 result).
  - rewrite H. simpl length.
    replace (22 - length result)%nat with (S (22 - S (length result))) by lia.
    rewrite replicate_S_end, <- app_assoc. reflexivity.
  - replace (22 - length result)%nat with 0%nat by lia. reflexivity.
Qed.

Lemma digits22_spec (num : Z) :
  0 <= num <= MAX_UUID ->
  length (digits22 num) = 22%nat
  /\ Forall is_digit (digits22 num)
  /\ value_from 0 (digits22 num) = num.
Proof.
  intros Hnum. unfold digits22.
  destruct (integerToDigits_spec num [] ltac:(lia)) as (l & Hl & Hdig & Hval & Hlen).
  simpl in Hl. rewrite Hl, pad22_replicate.
  assert (Hl22 : (length (reverse l) <= 22)%nat).
  { rewrite length_reverse. apply Hlen.
    pose proof MAX_UUID_lt_pow22. simpl Z.of_nat. lia. }
  repeat split.
  - rewrite length_app, length_replicate. lia.
  - apply Forall_app. split.
    + apply Forall_replicate. unfold is_digit, in_range, BASE58. lia.
    + apply Forall_reverse. exact Hdig.
  - unfold value_from. rewrite positional_zeros. exact Hval.
Qed.

Lemma digits22_unique (ds : list Z) :
  length ds = 22%nat -> Forall is_digit ds -> value_from 0 ds <= MAX_UUID ->
  digits22 (value_from 0 ds) = ds.
Proof.
  intros Hlen Hdig Hmax.
  pose proof (positional_bound BASE58 ltac:(reflexivity) ds Hdig) as Hb.
  destruct (digits22_spec (value_from 0 ds)) as (Hlen' & Hdig' & Hval');
    [unfold value_from in *; lia|].
  generalize dependent (digits22 (value_from 0 ds)). intros l Hlen' Hdig' Hval'.
  apply (positional_inj BASE58 ltac:(reflexivity)); [congruence|assumption..].
Qed.

(** ** Symbols *)

Lemma join_symbols_cons (d : Z) (ds : list Z) (c : N) :
  charAt ALPHABET d = Some c -> join_symbols (d :: ds) = c :: join_symbols ds.
Proof. intros Hc. unfold join_symbols. simpl. rewrite Hc. reflexivity. Qed.

Lemma join_symbols_spells (ds : list Z) :
  Forall is_digit ds -> spells (join_symbols ds) ds.
Proof.
  induction 1 as [|d ds Hd _ IH]; [constructor|].
  destruct (symbol_exists d Hd) as [c Hc].
  rewrite (join_symbols_cons d ds c Hc).
  constructor; [|exact IH]. apply symbol_digit_of; assumption.
Qed.

Lemma spells_join_symbols (s : jsstring) (ds : list Z) :
  spells s ds -> join_symbols ds = s.
Proof.
  induction 1 as [|c d s ds Hcd _ IH]; [reflexivity|].
  apply digit_of_symbol in Hcd as [_ Hc].
  rewrite (join_symbols_cons d ds c Hc), IH. reflexivity.
Qed.

Lemma spells_digits (s : jsstring) (ds : list Z) :
  spells s ds -> Forall is_digit ds.
Proof.
  induction 1 as [|c d s ds Hcd _ IH]; constructor; [|exact IH].
  apply digit_of_symbol in Hcd. tauto.
Qed.

Lemma spells_length (s : jsstring) (ds : list Z) :
  spells s ds -> length s = length ds.
Proof. apply Forall2_length. Qed.

Lemma spells_alphabet (s : jsstring) (ds : list Z) :
  spells s ds -> Forall (fun c => c ∈ ALPHABET) s.
Proof.
  induction 1 as [|c d s ds Hcd _ IH]; constructor; [|exact IH].
  apply in_alphabet_digit_of. eauto.
Qed.

Lemma alphabet_spells (s : jsstring) :
  Forall (fun c => c ∈ ALPHABET) s -> exists ds, spells s ds.
Proof.
  induction 1 as [|c s Hc _ [ds IH]]; [exists []; constructor|].
  apply in_alphabet_digit_of in Hc as [d Hd].
  exists (d :: ds). constructor; assumption.
Qed.

(** ** encode, in closed form *)

Lemma encode_wrong_length (data : list Z) :
  length data <> 16%nat -> encode data = Throw (InputLengthError (length data)).
Proof.
  intros Hlen. unfold encode.
  destruct (length data =? 16)%nat eqn:E; [apply Nat.eqb_eq in E; lia|reflexivity].
Qed.

Lemma encode_digits (data : list Z) :
  length data = 16%nat -> Forall is_byte data ->
  encode data = Ok (join_symbols (digits22 (be_value data))).
Proof.
  intros Hlen Hbytes. unfold encode.
  rewrite Hlen, bytesToInteger_be_value by exact Hbytes. reflexivity.
Qed.

(** ** The loop of decode *)

Lemma decode_loop_digit (i : nat) (c : N) (rest : jsstring) (num d : Z) :
  digit_of c = Some d ->
  decode_loop i (c :: rest) num
  = if num * BASE58 + d >? MAX_UUID then Throw OverflowError
    else decode_loop (S i) rest (num * BASE58 + d).
Proof.
  unfold digit_of. simpl decode_loop.
  destruct (255 <? c)%N; [discriminate|].
  destruct (REVERSE_ALPHABET !! N.to_nat c) as [d'|]; [|discriminate].
  destruct (d' =? 255); [discriminate|].
  intros [= ->]. reflexivity.
Qed.

Lemma decode_loop_no_digit (i : nat) (c : N) (rest : jsstring) (num : Z) :
  digit_of c = None ->
  decode_loop i (c :: rest) num = Throw (char_error i c).
Proof.
  unfold digit_of, char_error. simpl decode_loop.
  destruct (255 <? c)%N eqn:E; [reflexivity|].
  apply N.ltb_ge in E.
  destruct (lookup_lt_is_Some_2 REVERSE_ALPHABET (N.to_nat c)) as [d' Hd'].
  { rewrite REVERSE_ALPHABET_length. lia. }
  rewrite Hd'. destruct (d' =? 255); [reflexivity|discriminate].
Qed.

Lemma decode_loop_spells (s : jsstring) (ds : list Z) :
  spells s ds ->
  forall i num, 0 <= num <= MAX_UUID ->
    decode_loop i s num
    = if value_from num ds >? MAX_UUID then Throw OverflowError
      else Ok (value_from num ds).
Proof.
  induction 1 as [|c d s ds Hcd Hrest IH]; intros i num Hnum.
  - simpl. destruct (num >? MAX_UUID) eqn:E; [apply Z.gtb_gt in E; lia|reflexivity].
  - rewrite (decode_loop_digit i c s num d Hcd).
    change (value_from num (d :: ds)) with (value_from (num * BASE58 + d) ds).
    pose proof (digit_of_symbol c d Hcd) as [Hd _]. unfold is_digit, in_range in Hd.
    assert (Hnn : 0 <= num * BASE58 + d) by (unfold BASE58 in *; lia).
    pose proof (positional_mono BASE58 ltac:(reflexivity) ds _ Hnn
                  (spells_digits s ds Hrest)) as Hmono.
    fold (value_from (num * BASE58 + d) ds) in Hmono.
    destruct (num * BASE58 + d >? MAX_UUID) eqn:E.
    + apply Z.gtb_gt in E.
      destruct (value_from (num * BASE58 + d) ds >? MAX_UUID) eqn:E'; [reflexivity|].
      pose proof (Zgt_cases (value_from (num * BASE58 + d) ds) MAX_UUID) as Hc.
      rewrite E' in Hc. lia.
    + pose proof (Zgt_cases (num * BASE58 + d) MAX_UUID) as Hc. rewrite E in Hc.
      apply IH. lia.
Qed.

Lemma decode_loop_first_invalid (p : jsstring) (dp : list Z) :
  spells p dp ->
  forall i num c rest,
    0 <= num -> value_from num dp <= MAX_UUID -> digit_of c = None ->
    decode_loop i (p ++ c :: rest) num = Throw (char_error (i + length p) c).
Proof.
  induction 1 as [|c0 d0 p dp Hcd Hrest IH]; intros i num c rest Hnum Hmax Hc.
  - simpl app. rewrite Nat.add_0_r. apply decode_loop_no_digit. exact Hc.
  - rewrite <- app_comm_cons, (decode_loop_digit i c0 _ num d0 Hcd).
    change (value_from num (d0 :: dp)) with (value_from (num * BASE58 + d0) dp) in Hmax.
    pose proof (digit_of_symbol c0 d0 Hcd) as [Hd _]. unfold is_digit, in_range in Hd.
    assert (Hnn : 0 <= num * BASE58 + d0) by (unfold BASE58 in *; lia).
    pose proof (positional_mono BASE58 ltac:(reflexivity) dp _ Hnn
                  (spells_digits p dp Hrest)) as Hmono.
    fold (value_from (num * BASE58 + d0) dp) in Hmono.
    destruct (num * BASE58 + d0 >? MAX_UUID) eqn:E; [apply Z.gtb_gt in E; lia|].
    rewrite (IH (S i) _ c rest Hnn Hmax Hc). simpl length.
    do 2 f_equal. lia.
Qed.

Lemma decode_loop_Ok_inv (s : jsstring) :
  forall i num v,
    0 <= num <= MAX_UUID -> decode_loop i s num = Ok v ->
    exists ds, spells s ds /\ v = value_from num ds /\ 0 <= v <= MAX_UUID.
Proof.
  induction s as [|c s IH]; intros i num v Hnum Hdec.
  - simpl in Hdec. injection Hdec as <-. exists []. repeat split; try constructor; lia.
  - destruct (digit_of c) as [d|] eqn:Hcd.
    + rewrite (decode_loop_digit i c s num d Hcd) in Hdec.
      pose proof (digit_of_symbol c d Hcd) as [Hd _]. unfold is_digit, in_range in Hd.
      destruct (num * BASE58 + d >? MAX_UUID) eqn:E; [discriminate|].
      pose proof (Zgt_cases (num * BASE58 + d) MAX_UUID) as Hc. rewrite E in Hc.
      destruct (IH (S i) (num * BASE58 + d) v) as (ds & Hsp & Hv & Hrange);
        [unfold BASE58 in *; lia|exact Hdec|].
      exists (d :: ds). repeat split; try tauto.
      constructor; assumption.
    + rewrite (decode_loop_no_digit i c s num Hcd) in Hdec. discriminate.
Qed.

(** ** decode, in closed form *)

Lemma decode_wrong_length (s : jsstring) :
  length s <> 22%nat ->
  decode s = Throw (match s with
                    | [] => EmptyStringError
                    | _ :: _ => Base58LengthError (length s)
                    end).
Proof.
  intros Hlen. unfold decode. destruct s as [|c s]; [reflexivity|].
  simpl (length (c :: s) =? 0)%nat. cbv iota.
  destruct (length (c :: s) =? 22)%nat eqn:E; [apply Nat.eqb_eq in E; lia|].
  reflexivity.
Qed.

Lemma decode_loop_result (s : jsstring) :
  length s = 22%nat ->
  decode s = match decode_loop 0 s 0 with
             | Throw e => Throw e
             | Ok num => Ok (integerToBytes num)
             end.
Proof. intros Hlen. unfold decode. rewrite Hlen. reflexivity. Qed.

Lemma decode_spells (s : jsstring) (ds : list Z) :
  length s = 22%nat -> spells s ds ->
  decode s = if value_from 0 ds >? MAX_UUID then Throw OverflowError
             else Ok (integerToBytes (value_from 0 ds)).
Proof.
  intros Hlen Hsp. rewrite (decode_loop_result s Hlen).
  rewrite (decode_loop_spells s ds Hsp 0%nat 0) by (unfold MAX_UUID; lia).
  destruct (value_from 0 ds >? MAX_UUID); reflexivity.
Qed.

Lemma decode_Ok_inv (s : jsstring) (data : list Z) :
  decode s = Ok data ->
  exists ds, length s = 22%nat /\ spells s ds
             /\ 0 <= value_from 0 ds <= MAX_UUID
             /\ data = integerToBytes (value_from 0 ds).
Proof.
  intros Hdec.
  destruct (Nat.eq_dec (length s) 22%nat) as [Hlen|Hlen];
    [|rewrite (decode_wrong_length s Hlen) in Hdec; discriminate].
  rewrite (decode_loop_result s Hlen) in Hdec.
  destruct (decode_loop 0 s 0) as [num|e] eqn:Hloop; [|discriminate].
  injection Hdec as <-.
  destruct (decode_loop_Ok_inv s 0%nat 0 num ltac:(unfold MAX_UUID; lia) Hloop)
    as (ds & Hsp & -> & Hrange).
  exists ds. auto.
Qed.

(** Up to twenty-one digits never reach the ceiling. *)
Lemma short_value_bound (ds : list Z) :
  Forall is_digit ds -> (length ds <= 21)%nat ->
  0 <= value_from 0 ds <= MAX_UUID.
Proof.
  intros Hdig Hlen.
  pose proof (positional_bound BASE58 ltac:(reflexivity) ds Hdig) as Hb.
  assert (BASE58 ^ Z.of_nat (length ds) <= BASE58 ^ 21)
    by (apply Z.pow_le_mono_r; [reflexivity|lia]).
  pose proof pow21_le_MAX_UUID. unfold value_from. lia.
Qed.

(** ** Order *)

Lemma increasing_head (l : jsstring) :
  forall x, increasing (x :: l) = true -> Forall (fun y => (x < y)%N) l.
Proof.
  induction l as [|y l IH]; intros x Hinc; [constructor|].
  change (increasing (x :: y :: l)) with ((x <? y)%N && increasing (y :: l)) in Hinc.
  apply andb_prop in Hinc as [Hxy Hrest]. apply N.ltb_lt in Hxy.
  constructor; [exact Hxy|].
  eapply Forall_impl; [apply IH, Hrest|]. simpl. intros z Hz. lia.
Qed.

Lemma increasing_tail (x : N) (l : jsstring) :
  increasing (x :: l) = true -> increasing l = true.
Proof.
  destruct l as [|y l]; [reflexivity|].
  change (increasing (x :: y :: l)) with ((x <? y)%N && increasing (y :: l)).
  intros H. apply andb_prop in H. tauto.
Qed.

Lemma increasing_lookup (l : jsstring) :
  increasing l = true ->
  forall (i j : nat) (x y : N),
    (i < j)%nat -> l !! i = Some x -> l !! j = Some y -> (x < y)%N.
Proof.
  induction l as [|z l IH]; intros Hinc i j x y Hij Hi Hj; [discriminate|].
  destruct j as [|j]; [lia|]. simpl in Hj.
  destruct i as [|i].
  - simpl in Hi. injection Hi as ->.
    pose proof (increasing_head l x Hinc) as Hall.
    rewrite Forall_forall in Hall. apply Hall.
    eapply list_elem_of_lookup_2. exact Hj.
  - simpl in Hi. apply (IH (increasing_tail z l Hinc) i j); [lia|assumption..].
Qed.

Lemma symbol_lt (d1 d2 : Z) (c1 c2 : N) :
  digit_of c1 = Some d1 -> digit_of c2 = Some d2 ->
  d1 < d2 -> (c1 < c2)%N.
Proof.
  intros H1 H2 Hlt.
  apply digit_of_symbol in H1 as [Hd1 Hc1].
  apply digit_of_symbol in H2 as [Hd2 Hc2].
  unfold charAt, is_digit, in_range in *.
  destruct (d1 <? 0) eqn:E1; [discriminate|].
  destruct (d2 <? 0) eqn:E2; [discriminate|].
  apply (increasing_lookup ALPHABET ALPHABET_increasing (Z.to_nat d1) (Z.to_nat d2));
    [lia|assumption..].
Qed.

Lemma value_lt_str_ltb (sa : jsstring) (da : list Z) :
  spells sa da ->
  forall sb db, spells sb db -> length da = length db ->
    (value_from 0 da < value_from 0 db <-> str_ltb sa sb = true).
Proof.
  induction 1 as [|ca x sa da Hx Ha IH]; intros sb db Hb Hlen.
  - destruct Hb; [|discriminate]. simpl. split; [lia|discriminate].
  - destruct Hb as [|cb y sb db Hy Hb]; [discriminate|].
    injection Hlen as Hlen.
    specialize (IH sb db Hb Hlen).
    unfold value_from in *. rewrite !positional_cons, <- Hlen by reflexivity.
    pose proof (positional_bound BASE58 ltac:(reflexivity) da (spells_digits _ _ Ha)) as Ba.
    pose proof (positional_bound BASE58 ltac:(reflexivity) db (spells_digits _ _ Hb)) as Bb.
    rewrite <- Hlen in Bb.
    set (P := BASE58 ^ Z.of_nat (length da)) in *.
    set (va := positional BASE58 0 da) in *.
    set (vb := positional BASE58 0 db) in *.
    simpl str_ltb.
    destruct (Z.lt_total x y) as [Hlt|[Heq|Hgt]].
    + pose proof (symbol_lt x y ca cb Hx Hy Hlt) as Hc.
      apply N.ltb_lt in Hc. rewrite Hc. simpl. split; [reflexivity|]. intros _. nia.
    + subst y. assert (ca = cb) as <-.
      { apply digit_of_symbol in Hx as [_ Hx]. apply digit_of_symbol in Hy as [_ Hy].
        congruence. }
      rewrite N.ltb_irrefl, N.eqb_refl. simpl. rewrite <- IH. lia.
    + pose proof (symbol_lt y x cb ca Hy Hx ltac:(lia)) as Hc.
      assert (Hnlt : (ca <? cb)%N = false) by (apply N.ltb_ge; lia).
      assert (Hneq : (ca =? cb)%N = false) by (apply N.eqb_neq; lia).
      rewrite Hnlt, Hneq. simpl. split; [|discriminate]. intros Hv. nia.
Qed.

(** ** The codec *)

Lemma roundtrip_buffer (data : list Z) :
  length data = 16%nat -> Forall is_byte data ->
  exists s, encode data = Ok s /\ decode s = Ok data.
Proof.
  intros Hlen Hbytes.
  pose proof (be_value_bound data Hlen Hbytes) as Hv.
  destruct (digits22_spec (be_value data) Hv) as (Hlen22 & Hdig & Hval).
  pose proof (join_symbols_spells _ Hdig) as Hsp.
  exists (join_symbols (digits22 (be_value data))). split.
  - apply encode_digits; assumption.
  - rewrite (decode_spells _ _ ltac:(rewrite (spells_length _ _ Hsp); exact Hlen22) Hsp).
    rewrite Hval.
    destruct (be_value data >? MAX_UUID) eqn:E; [apply Z.gtb_gt in E; lia|].
    rewrite integerToBytes_be_value by assumption. reflexivity.
Qed.

Lemma encode_of_decode (s : jsstring) (data : list Z) :
  decode s = Ok data -> encode data = Ok s.
Proof.
  intros Hdec.
  destruct (decode_Ok_inv s data Hdec) as (ds & Hlen & Hsp & Hrange & ->).
  rewrite encode_digits by (apply integerToBytes_length || apply integerToBytes_bytes).
  rewrite be_value_integerToBytes by exact Hrange.
  rewrite digits22_unique.
  - rewrite (spells_join_symbols s ds Hsp). reflexivity.
  - rewrite <- (spells_length s ds Hsp). exact Hlen.
  - exact (spells_digits s ds Hsp).
  - lia.
Qed.

Lemma split_first_invalid (s : jsstring) :
  (exists ds, spells s ds)
  \/ (exists p dp c rest,
        s = p ++ c :: rest /\ spells p dp /\ digit_of c = None).
Proof.
  induction s as [|c s IH].
  - left. exists []. constructor.
  - destruct (digit_of c) as [d|] eqn:Hc.
    + destruct IH as [[ds Hds]|(p & dp & c' & rest & -> & Hp & Hc')].
      * left. exists (d :: ds). constructor; assumption.
      * right. exists (c :: p), (d :: dp), c', rest.
        repeat split; [|assumption]. constructor; assumption.
    + right. exists [], [], c, s. repeat split; [constructor|assumption].
Qed.

Lemma decode_loop_prefix_throw (p : jsstring) :
  forall i num e rest,
    decode_loop i p num = Throw e -> decode_loop i (p ++ rest) num = Throw e.
Proof.
  induction p as [|c p IH]; intros i num e rest Hthrow; [discriminate|].
  rewrite <- app_comm_cons.
  destruct (digit_of c) as [d|] eqn:Hc.
  - rewrite (decode_loop_digit i c p num d Hc) in Hthrow.
    rewrite (decode_loop_digit i c (p ++ rest) num d Hc).
    destruct (num * BASE58 + d >? MAX_UUID); [exact Hthrow|].
    apply IH. exact Hthrow.
  - rewrite (decode_loop_no_digit i c p num Hc) in Hthrow.
    rewrite (decode_loop_no_digit i c (p ++ rest) num Hc). exact Hthrow.
Qed.

Lemma excluded_outside_alphabet :
  Forall (fun c => c ∉ ALPHABET) (str "0OIl").
Proof.
  repeat constructor; intros Hin; apply in_alphabet_digit_of in Hin as [d Hd];
    vm_compute in Hd; discriminate.
Qed.

Lemma wide_outside_alphabet (c : N) : (256 <= c)%N -> c ∉ ALPHABET.
Proof.
  intros Hc Hin. apply in_alphabet_digit_of in Hin as [d Hd].
  apply digit_of_le_255 in Hd. lia.
Qed.

Lemma loop_prefix_value (s : jsstring) (ds : list Z) (k : nat) :
  spells s ds ->
  decode_loop 0 (take k s) 0
  = if value_from 0 (take k ds) >? MAX_UUID then Throw OverflowError
    else Ok (value_from 0 (take k ds)).
Proof.
  intros Hsp. apply decode_loop_spells; [|unfold MAX_UUID; lia].
  apply Forall2_take. exact Hsp.
Qed.

Lemma loop_prefix_no_overflow (s : jsstring) (ds : list Z) (k : nat) :
  spells s ds -> (k <= 21)%nat ->
  decode_loop 0 (take k s) 0 = Ok (value_from 0 (take k ds)).
Proof.
  intros Hsp Hk. rewrite (loop_prefix_value s ds k Hsp).
  assert (Hb : 0 <= value_from 0 (take k ds) <= MAX_UUID).
  { apply short_value_bound.
    - apply Forall_take. exact (spells_digits s ds Hsp).
    - rewrite length_take. lia. }
  destruct (value_from 0 (take k ds) >? MAX_UUID) eqn:E;
    [apply Z.gtb_gt in E; lia|reflexivity].
Qed.

(** ** Vectors of the repository's tests *)

Example encode_sample :
  encode [0x55; 0x0e; 0x84; 0x00; 0xe2; 0x9b; 0x41; 0xd4;
          0xa7; 0x16; 0x44; 0x66; 0x55; 0x44; 0x00; 0x00]
  = Ok (str "BWBeN28Vb7cMEx7Ym8AUzs").
Proof. vm_compute. reflexivity. Qed.

Example encode_one :
  encode (replicate 15 0 ++ [1]) = Ok (str "1111111111111111111112").
Proof. vm_compute. reflexivity. Qed.

Example encode_deadbeef :
  encode [0xde; 0xad; 0xbe; 0xef; 0xca; 0xfe; 0xba; 0xbe;
          0x01; 0x23; 0x45; 0x67; 0x89; 0xab; 0xcd; 0xef]
  = Ok (str "UVqy39vS4tbfPzthw5VEKg").
Proof. vm_compute. reflexivity. Qed.

Example decode_leading_ones :
  decode (str "111111111111111111111A") = Ok (replicate 15 0 ++ [9]).
Proof. vm_compute. reflexivity. Qed.

Example decode_max :
  decode (str "YcVfxkQb6JRzqk5kF2tNLv") = Ok (replicate 16 0xFF).
Proof. vm_compute. reflexivity. Qed.

Example decode_excluded_zero :
  decode (str "0000000000000000000000") = Throw (Base58CharError 0 48).
Proof. vm_compute. reflexivity. Qed.

Example decode_short :
  decode (str "111111111111111111111") = Throw (Base58LengthError 21).
Proof. vm_compute. reflexivity. Qed.

(** * The claims *)

(** C1 (round trip). Every 16-byte buffer [data] is encoded, and
    decoding the resulting string returns [data]. The 16-byte buffers
    are exactly the big-endian buffers of the 128-bit unsigned values:
    [data] is [integerToBytes] of its big-endian value, which lies in
    [0, 2^128 - 1], and for every such value [v], [integerToBytes v] is
    a buffer of 16 bytes whose big-endian value is [v]; so
    [decode (encode (integerToBytes v))] is [integerToBytes v]. *)
Theorem decode_encode_roundtrip (data : list Z)
    (Hlen : length data = 16%nat) (Hbytes : Forall is_byte data) :
  (exists s, encode data = Ok s /\ decode s = Ok data)
  /\ 0 <= be_value data <= MAX_UUID
  /\ integerToBytes (be_value data) = data
  /\ (forall v : Z,
        0 <= v <= MAX_UUID ->
        length (integerToBytes v) = 16%nat
        /\ Forall is_byte (integerToBytes v)
        /\ be_value (integerToBytes v) = v
        /\ exists s, encode (integerToBytes v) = Ok s
                     /\ decode s = Ok (integerToBytes v)).
Proof.
  split; [apply roundtrip_buffer; assumption|].
  split; [apply be_value_bound; assumption|].
  split; [apply integerToBytes_be_value; assumption|].
  intros v Hv.
  split; [apply integerToBytes_length|].
  split; [apply integerToBytes_bytes|].
  split; [apply be_value_integerToBytes; exact Hv|].
  apply roundtrip_buffer; [apply integerToBytes_length|apply integerToBytes_bytes].
Qed.

Lemma decode_encode_roundtrip_witness :
  length [0x55; 0x0e; 0x84; 0x00; 0xe2; 0x9b; 0x41; 0xd4;
          0xa7; 0x16; 0x44; 0x66; 0x55; 0x44; 0x00; 0x00] = 16%nat
  /\ Forall is_byte [0x55; 0x0e; 0x84; 0x00; 0xe2; 0x9b; 0x41; 0xd4;
                     0xa7; 0x16; 0x44; 0x66; 0x55; 0x44; 0x00; 0x00]
  /\ (exists s,
        encode [0x55; 0x0e; 0x84; 0x00; 0xe2; 0x9b; 0x41; 0xd4;
                0xa7; 0x16; 0x44; 0x66; 0x55; 0x44; 0x00; 0x00] = Ok s
        /\ decode s = Ok [0x55; 0x0e; 0x84; 0x00; 0xe2; 0x9b; 0x41; 0xd4;
                          0xa7; 0x16; 0x44; 0x66; 0x55; 0x44; 0x00; 0x00])
  /\ integerToBytes 0x550e8400e29b41d4a716446655440000
     = [0x55; 0x0e; 0x84; 0x00; 0xe2; 0x9b; 0x41; 0xd4;
        0xa7; 0x16; 0x44; 0x66; 0x55; 0x44; 0x00; 0x00].
Proof.
  assert (H : Forall is_byte [0x55; 0x0e; 0x84; 0x00; 0xe2; 0x9b; 0x41; 0xd4;
                              0xa7; 0x16; 0x44; 0x66; 0x55; 0x44; 0x00; 0x00])
    by bytes_ok.
  pose proof (decode_encode_roundtrip
                [0x55; 0x0e; 0x84; 0x00; 0xe2; 0x9b; 0x41; 0xd4;
                 0xa7; 0x16; 0x44; 0x66; 0x55; 0x44; 0x00; 0x00] eq_refl H)
    as (Hround & _ & Hback & _).
  split; [reflexivity|]. split; [exact H|]. split; [exact Hround|].
  exact Hback.
Defined.

(** C2 (encode contract). On a byte buffer, [encode] fails exactly when
    the buffer is not 16 bytes long, and then with the length error,
    whose kind is InvalidLength; on every 16-byte buffer it returns a
    string of exactly 22 characters, each a member of the alphabet. *)
Theorem encode_contract (data : list Z) (Hbytes : Forall is_byte data) :
  ((exists e, encode data = Throw e /\ kind e = Some InvalidLength)
   <-> length data <> 16%nat)
  /\ (forall e, encode data = Throw e -> e = InputLengthError (length data))
  /\ (length data = 16%nat ->
      exists s, encode data = Ok s
                /\ length s = 22%nat
                /\ Forall (fun c => c ∈ ALPHABET) s).
Proof.
  assert (Hok : length data = 16%nat ->
                exists s, encode data = Ok s /\ length s = 22%nat
                          /\ Forall (fun c => c ∈ ALPHABET) s).
  { intros Hlen.
    pose proof (be_value_bound data Hlen Hbytes) as Hv.
    destruct (digits22_spec (be_value data) Hv) as (Hlen22 & Hdig & _).
    pose proof (join_symbols_spells _ Hdig) as Hsp.
    exists (join_symbols (digits22 (be_value data))). repeat split.
    - apply encode_digits; assumption.
    - rewrite (spells_length _ _ Hsp). exact Hlen22.
    - exact (spells_alphabet _ _ Hsp). }
  repeat split.
  - intros (e & He & _) Hlen. destruct (Hok Hlen) as (s & Hs & _). congruence.
  - intros Hlen. exists (InputLengthError (length data)).
    split; [apply encode_wrong_length; exact Hlen|reflexivity].
  - intros e He. destruct (Nat.eq_dec (length data) 16%nat) as [Hlen|Hlen].
    + destruct (Hok Hlen) as (s & Hs & _). congruence.
    + rewrite (encode_wrong_length data Hlen) in He. congruence.
  - exact Hok.
Qed.

Lemma encode_contract_witness :
  Forall is_byte [0x55; 0x0e; 0x84; 0x00; 0xe2; 0x9b; 0x41; 0xd4;
                  0xa7; 0x16; 0x44; 0x66; 0x55; 0x44; 0x00; 0x00]
  /\ exists s, encode [0x55; 0x0e; 0x84; 0x00; 0xe2; 0x9b; 0x41; 0xd4;
                       0xa7; 0x16; 0x44; 0x66; 0x55; 0x44; 0x00; 0x00] = Ok s
               /\ length s = 22%nat
               /\ Forall (fun c => c ∈ ALPHABET) s.
Proof.
  assert (H : Forall is_byte [0x55; 0x0e; 0x84; 0x00; 0xe2; 0x9b; 0x41; 0xd4;
                              0xa7; 0x16; 0x44; 0x66; 0x55; 0x44; 0x00; 0x00])
    by bytes_ok.
  split; [exact H|].
  exact (proj2 (proj2 (encode_contract _ H)) eq_refl).
Defined.

(** C3 (overflow timing), as the code has it. Let [s] be 22 characters
    of the alphabet spelling the digits [ds]. After each multiply-add
    the loop compares the accumulator with [MAX_UUID]: run on the first
    [k] characters it yields Overflow exactly when the running value of
    the first [k] digits exceeds the ceiling, and that value otherwise.
    Since 58^21 <= 2^128 - 1, the running value stays below the ceiling
    through the first 21 characters, so Overflow is raised only once
    all 22 characters have been consumed, and [decode] fails with
    Overflow exactly when the value of the 22 digits exceeds the
    ceiling. The check itself sits in every round of the loop: from any
    accumulator, a round on a digit fails with Overflow if the
    multiply-add exceeds the ceiling and goes on otherwise; and once
    the running value of some symbols exceeds the ceiling the loop has
    failed with Overflow, whatever follows them. *)
Theorem overflow_timing (s : jsstring) (ds : list Z)
    (Hlen : length s = 22%nat) (Hsp : spells s ds) :
  (forall k : nat,
      decode_loop 0 (take k s) 0
      = if value_from 0 (take k ds) >? MAX_UUID then Throw OverflowError
        else Ok (value_from 0 (take k ds)))
  /\ (forall k : nat, (k < 22)%nat ->
        decode_loop 0 (take k s) 0 = Ok (value_from 0 (take k ds))
        /\ value_from 0 (take k ds) <= MAX_UUID)
  /\ (decode s = Throw OverflowError <-> MAX_UUID < value_from 0 ds)
  /\ (forall (i : nat) (c : N) (d num : Z) (rest : jsstring),
        digit_of c = Some d ->
        decode_loop i (c :: rest) num
        = if num * BASE58 + d >? MAX_UUID then Throw OverflowError
          else decode_loop (S i) rest (num * BASE58 + d))
  /\ (forall (i : nat) (p rest : jsstring) (dp : list Z) (num : Z),
        spells p dp -> 0 <= num <= MAX_UUID ->
        MAX_UUID < value_from num dp ->
        decode_loop i (p ++ rest) num = Throw OverflowError).
Proof.
  split; [|split; [|split; [|split]]].
  5:{ intros i p rest dp num Hp Hnum Hover.
      apply decode_loop_prefix_throw.
      rewrite (decode_loop_spells p dp Hp i num Hnum).
      apply Z.lt_gt, Z.gtb_gt in Hover. rewrite Hover. reflexivity. }
  4:{ intros i c d num rest Hc. apply decode_loop_digit. exact Hc. }
  3:{ split.
      - rewrite (decode_spells s ds Hlen Hsp).
        destruct (value_from 0 ds >? MAX_UUID) eqn:E; [|discriminate].
        intros _. apply Z.gtb_gt in E. lia.
      - intros Hgt. rewrite (decode_spells s ds Hlen Hsp).
        apply Z.lt_gt, Z.gtb_gt in Hgt. rewrite Hgt. reflexivity. }
  2:{ intros k Hk. split.
      - apply loop_prefix_no_overflow; [exact Hsp|lia].
      - apply short_value_bound.
        + apply Forall_take. exact (spells_digits s ds Hsp).
        + rewrite length_take. lia. }
  intros k. apply loop_prefix_value. exact Hsp.
Qed.

Lemma overflow_timing_witness :
  length (str "zzzzzzzzzzzzzzzzzzzzzz") = 22%nat
  /\ spells (str "zzzzzzzzzzzzzzzzzzzzzz") (replicate 22 57)
  /\ decode_loop 0 (take 21 (str "zzzzzzzzzzzzzzzzzzzzzz")) 0
     = Ok (value_from 0 (take 21 (replicate 22 57)))
  /\ (decode (str "zzzzzzzzzzzzzzzzzzzzzz") = Throw OverflowError
      <-> MAX_UUID < value_from 0 (replicate 22 57))
  /\ decode_loop 0 (str "zzzzzzzzzzzzzzzzzzzzzz" ++ str "0") 0
     = Throw OverflowError.
Proof.
  assert (Hsp : spells (str "zzzzzzzzzzzzzzzzzzzzzz") (replicate 22 57))
    by (unfold spells; spells_ok).
  pose proof (overflow_timing (str "zzzzzzzzzzzzzzzzzzzzzz") (replicate 22 57)
                eq_refl Hsp) as (_ & Hearly & Hlast & _ & Hinstant).
  split; [reflexivity|]. split; [exact Hsp|].
  split; [exact (proj1 (Hearly 21%nat ltac:(lia)))|].
  split; [exact Hlast|].
  apply (Hinstant 0%nat _ (str "0") (replicate 22 57) 0 Hsp).
  - unfold MAX_UUID. lia.
  - apply Z.ltb_lt. vm_compute. reflexivity.
Defined.

(** C3, as stated, fails: no 22-character string of alphabet symbols
    makes the loop raise Overflow on a proper prefix, that is, before
    all 22 characters have been consumed. *)
Lemma overflow_before_last_character_impossible :
  ~ exists (s : jsstring) (k : nat),
      length s = 22%nat
      /\ Forall (fun c => c ∈ ALPHABET) s
      /\ (k < 22)%nat
      /\ decode_loop 0 (take k s) 0 = Throw OverflowError.
Proof.
  intros (s & k & _ & Hs & Hk & Hthrow).
  destruct (alphabet_spells s Hs) as [ds Hsp].
  rewrite (loop_prefix_no_overflow s ds k Hsp) in Hthrow by lia.
  discriminate.
Qed.

(** C4 (invalid characters). A 22-character string with at least one
    character outside the alphabet is never decoded: [decode] fails
    with an InvalidCharacter error naming the first such character and
    its position. The excluded characters 0, O, I and l and every code
    unit from 256 on are outside the alphabet. *)
Theorem invalid_character_rejected (s : jsstring)
    (Hlen : length s = 22%nat)
    (Hbad : Exists (fun c => c ∉ ALPHABET) s) :
  (exists (i : nat) (c : N),
      s !! i = Some c
      /\ (c ∉ ALPHABET)
      /\ (forall j c', (j < i)%nat -> s !! j = Some c' -> c' ∈ ALPHABET)
      /\ decode s = Throw (char_error i c)
      /\ kind (char_error i c) = Some InvalidCharacter
      /\ offender (char_error i c) = Some (i, c))
  /\ Forall (fun c => c ∉ ALPHABET) (str "0OIl")
  /\ (forall c : N, (256 <= c)%N -> c ∉ ALPHABET).
Proof.
  split; [|split; [exact excluded_outside_alphabet|exact wide_outside_alphabet]].
  destruct (split_first_invalid s) as [[ds Hds]|(p & dp & c & rest & -> & Hp & Hc)].
  - exfalso. apply spells_alphabet in Hds.
    rewrite Forall_forall in Hds. apply Exists_exists in Hbad as (c & Hin & Hout).
    apply Hout, Hds. exact Hin.
  - exists (length p), c.
    assert (Hshort : (length dp <= 21)%nat).
    { rewrite <- (spells_length p dp Hp).
      rewrite length_app in Hlen. simpl in Hlen. lia. }
    pose proof (short_value_bound dp (spells_digits p dp Hp) Hshort) as Hv.
    repeat split.
    + rewrite lookup_app_r by lia. rewrite Nat.sub_diag. reflexivity.
    + intros Hin. apply in_alphabet_digit_of in Hin as [d Hd]. congruence.
    + intros j c' Hj Hlook. rewrite lookup_app_l in Hlook by exact Hj.
      pose proof (spells_alphabet p dp Hp) as Hall.
      rewrite Forall_forall in Hall. apply Hall.
      eapply list_elem_of_lookup_2. exact Hlook.
    + rewrite (decode_loop_result _ Hlen).
      rewrite (decode_loop_first_invalid p dp Hp 0%nat 0 c rest) by (lia || exact Hc).
      reflexivity.
    + unfold char_error. destruct (255 <? c)%N; reflexivity.
    + unfold char_error. destruct (255 <? c)%N; reflexivity.
Qed.

Lemma invalid_character_rejected_witness :
  length (str "zzzzzzzzzzzzzzzzzzzzz0") = 22%nat
  /\ Exists (fun c => c ∉ ALPHABET) (str "zzzzzzzzzzzzzzzzzzzzz0")
  /\ exists (i : nat) (c : N),
       str "zzzzzzzzzzzzzzzzzzzzz0" !! i = Some c
       /\ (c ∉ ALPHABET)
       /\ decode (str "zzzzzzzzzzzzzzzzzzzzz0") = Throw (char_error i c).
Proof.
  assert (Hbad : Exists (fun c => c ∉ ALPHABET) (str "zzzzzzzzzzzzzzzzzzzzz0")).
  { do 21 apply Exists_cons_tl. apply Exists_cons_hd.
    exact (Forall_inv excluded_outside_alphabet). }
  split; [reflexivity|]. split; [exact Hbad|].
  destruct (invalid_character_rejected (str "zzzzzzzzzzzzzzzzzzzzz0") eq_refl Hbad)
    as ((i & c & Hi & Hc & _ & Hdec & _) & _).
  exists i, c. auto.
Defined.

(** C5 (fail-fast order). A string whose length is not 22 is rejected
    on its length alone, whatever its characters: the empty string
    with the InvalidFormat error, every other one with the
    InvalidLength error carrying its length. *)
Theorem decode_fail_fast (s : jsstring) (Hlen : length s <> 22%nat) :
  (s = [] ->
   decode s = Throw EmptyStringError
   /\ kind EmptyStringError = Some InvalidFormat)
  /\ (s <> [] ->
      decode s = Throw (Base58LengthError (length s))
      /\ kind (Base58LengthError (length s)) = Some InvalidLength).
Proof.
  pose proof (decode_wrong_length s Hlen) as Hdec.
  split.
  - intros ->. split; [exact Hdec|reflexivity].
  - intros Hne. destruct s as [|c s]; [congruence|].
    split; [exact Hdec|reflexivity].
Qed.

Lemma decode_fail_fast_witness :
  length (str "0O Il!zzzzzzzzzzzzzzzzzzzzzzzzzzzz") <> 22%nat
  /\ decode (str "0O Il!zzzzzzzzzzzzzzzzzzzzzzzzzzzz")
     = Throw (Base58LengthError 34).
Proof.
  assert (Hlen : length (str "0O Il!zzzzzzzzzzzzzzzzzzzzzzzzzzzz") <> 22%nat)
    by (simpl; lia).
  split; [exact Hlen|].
  exact (proj1 (proj2 (decode_fail_fast _ Hlen) ltac:(discriminate))).
Defined.

(** C6 (zero vector). The all-zero 16-byte buffer encodes to 22 copies
    of the symbol 1, and 22 copies of 1 decode to the all-zero
    buffer. *)
Theorem zero_vector :
  encode (replicate 16 0) = Ok (str "1111111111111111111111")
  /\ decode (str "1111111111111111111111") = Ok (replicate 16 0)
  /\ ALPHABET !! 0%nat = head (str "1").
Proof. repeat split; vm_compute; reflexivity. Qed.

(** C7 (max vector). The buffer of sixteen 0xFF bytes encodes to
    YcVfxkQb6JRzqk5kF2tNLv. *)
Theorem max_vector :
  encode (replicate 16 0xFF) = Ok (str "YcVfxkQb6JRzqk5kF2tNLv")
  /\ be_value (replicate 16 0xFF) = 2 ^ 128 - 1.
Proof. split; vm_compute; reflexivity. Qed.

(** C8 (overflow vector). Twenty-two copies of z, the symbol of digit
    57, decode to the Overflow failure. *)
Theorem overflow_vector :
  decode (str "zzzzzzzzzzzzzzzzzzzzzz") = Throw OverflowError
  /\ kind OverflowError = Some Overflow
  /\ digit_of 122%N = Some 57
  /\ str "z" = [122%N].
Proof. repeat split; vm_compute; reflexivity. Qed.

(** C9 (inverse round trip). Whenever [decode] accepts a string [s] and
    returns [data], [data] is a 16-byte buffer, encoding it gives back
    [s], and [s] is the only string that decodes to [data]. Every
    16-byte buffer is reached: it has exactly one string that [decode]
    accepts and maps to it, its encoding. So the codec is a bijection
    between the accepted strings and the 16-byte buffers. *)
Theorem encode_decode_roundtrip (s : jsstring) (data : list Z)
    (Hdec : decode s = Ok data) :
  encode data = Ok s
  /\ length data = 16%nat
  /\ Forall is_byte data
  /\ (forall s', decode s' = Ok data -> s' = s)
  /\ (forall data' : list Z,
        length data' = 16%nat -> Forall is_byte data' ->
        exists s',
          encode data' = Ok s'
          /\ decode s' = Ok data'
          /\ forall s'', decode s'' = Ok data' -> s'' = s').
Proof.
  pose proof (encode_of_decode s data Hdec) as Henc.
  split; [exact Henc|]. split; [|split; [|split]].
  - destruct (decode_Ok_inv s data Hdec) as (ds & _ & _ & _ & ->).
    apply integerToBytes_length.
  - destruct (decode_Ok_inv s data Hdec) as (ds & _ & _ & _ & ->).
    apply integerToBytes_bytes.
  - intros s' Hdec'. apply encode_of_decode in Hdec'. congruence.
  - intros data' Hlen' Hbytes'.
    destruct (roundtrip_buffer data' Hlen' Hbytes') as (s' & Henc' & Hdec').
    exists s'. split; [exact Henc'|]. split; [exact Hdec'|].
    intros s'' Hdec''. apply encode_of_decode in Hdec''. congruence.
Qed.

Lemma encode_decode_roundtrip_witness :
  decode (str "BWBeN28Vb7cMEx7Ym8AUzs")
  = Ok [0x55; 0x0e; 0x84; 0x00; 0xe2; 0x9b; 0x41; 0xd4;
        0xa7; 0x16; 0x44; 0x66; 0x55; 0x44; 0x00; 0x00]
  /\ encode [0x55; 0x0e; 0x84; 0x00; 0xe2; 0x9b; 0x41; 0xd4;
             0xa7; 0x16; 0x44; 0x66; 0x55; 0x44; 0x00; 0x00]
     = Ok (str "BWBeN28Vb7cMEx7Ym8AUzs").
Proof.
  assert (Hdec : decode (str "BWBeN28Vb7cMEx7Ym8AUzs")
                 = Ok [0x55; 0x0e; 0x84; 0x00; 0xe2; 0x9b; 0x41; 0xd4;
                       0xa7; 0x16; 0x44; 0x66; 0x55; 0x44; 0x00; 0x00])
    by (vm_compute; reflexivity).
  split; [exact Hdec|].
  exact (proj1 (encode_decode_roundtrip _ _ Hdec)).
Defined.

(** C10 (order preservation). For two 16-byte buffers [a] and [b],
    both are encoded, and the big-endian value of [a] is less than that
    of [b] exactly when the encoding of [a] precedes the encoding of
    [b] in the lexicographic order of the character codes. *)
Theorem encode_strictly_monotone (a b : list Z)
    (Hla : length a = 16%nat) (Hlb : length b = 16%nat)
    (Hba : Forall is_byte a) (Hbb : Forall is_byte b) :
  exists sa sb,
    encode a = Ok sa /\ encode b = Ok sb
    /\ (be_value a < be_value b <-> str_ltb sa sb = true).
Proof.
  pose proof (be_value_bound a Hla Hba) as Hva.
  pose proof (be_value_bound b Hlb Hbb) as Hvb.
  destruct (digits22_spec (be_value a) Hva) as (Hlena & Hdiga & Hvala).
  destruct (digits22_spec (be_value b) Hvb) as (Hlenb & Hdigb & Hvalb).
  exists (join_symbols (digits22 (be_value a))),
         (join_symbols (digits22 (be_value b))).
  split; [apply encode_digits; assumption|].
  split; [apply encode_digits; assumption|].
  rewrite <- Hvala at 1. rewrite <- Hvalb at 1.
  apply value_lt_str_ltb.
  - apply join_symbols_spells. exact Hdiga.
  - apply join_symbols_spells. exact Hdigb.
  - congruence.
Qed.

Lemma encode_strictly_monotone_witness :
  length (replicate 15 0 ++ [9]) = 16%nat
  /\ length (0x55 :: replicate 15 0) = 16%nat
  /\ Forall is_byte (replicate 15 0 ++ [9])
  /\ Forall is_byte (0x55 :: replicate 15 0)
  /\ exists sa sb,
       encode (replicate 15 0 ++ [9]) = Ok sa
       /\ encode (0x55 :: replicate 15 0) = Ok sb
       /\ (be_value (replicate 15 0 ++ [9]) < be_value (0x55 :: replicate 15 0)
           <-> str_ltb sa sb = true).
Proof.
  assert (Hba : Forall is_byte (replicate 15 0 ++ [9])) by (simpl; bytes_ok).
  assert (Hbb : Forall is_byte (0x55 :: replicate 15 0)) by (simpl; bytes_ok).
  split; [reflexivity|]. split; [reflexivity|].
  split; [exact Hba|]. split; [exact Hbb|].
  exact (encode_strictly_monotone (replicate 15 0 ++ [9]) (0x55 :: replicate 15 0)
           eq_refl eq_refl Hba Hbb).
Defined.

(** * Beyond the claims: the rest of the Base58 module and [src/index.ts] *)

(** ** Vectors of the repository's tests for the public functions *)

Example index_encode_mixed_case :
  Index.encode asciiToLowerCase (str "550E8400-E29B-41D4-A716-446655440000")
  = Return (str "BWBeN28Vb7cMEx7Ym8AUzs").
Proof. vm_compute. reflexivity. Qed.

Example index_decode_sample :
  Index.decode (str "BWBeN28Vb7cMEx7Ym8AUzs")
  = Return (str "550e8400-e29b-41d4-a716-446655440000").
Proof. vm_compute. reflexivity. Qed.

Example index_decode_deadbeef :
  Index.decode (str "UVqy39vS4tbfPzthw5VEKg")
  = Return (str "deadbeef-cafe-babe-0123-456789abcdef").
Proof. vm_compute. reflexivity. Qed.

Example index_encode_too_short :
  Index.encode asciiToLowerCase (str "invalid-uuid")
  = Raise (InvalidUUIDError (str "invalid-uuid") (Some (UUIDLengthError 11))).
Proof. vm_compute. reflexivity. Qed.

Example index_encode_not_hex :
  Index.encode asciiToLowerCase (str "gggggggg-gggg-gggg-gggg-gggggggggggg")
  = Raise (InvalidUUIDError (str "gggggggg-gggg-gggg-gggg-gggggggggggg")
             (Some UUIDFormatError)).
Proof. vm_compute. reflexivity. Qed.

Example index_decode_overflow :
  Index.decode (str "zzzzzzzzzzzzzzzzzzzzzz")
  = Raise (InvalidB58Error (str "zzzzzzzzzzzzzzzzzzzzzz")
             (Some (Base58Error OverflowError))).
Proof. vm_compute. reflexivity. Qed.

Example parseInt16_samples :
  parseInt16 (str "ff") = Some 255
  /\ parseInt16 (str " -0x1F") = Some (-31)
  /\ parseInt16 (str "0x") = None
  /\ parseInt16 (str "5z") = Some 5
  /\ parseInt16 (str "") = None.
Proof. vm_compute. repeat split. Qed.


(** ** Hexadecimal digits *)

Lemma isLowerHex_cases (c : N) :
  isLowerHex c = true ->
  In c [48; 49; 50; 51; 52; 53; 54; 55; 56; 57; 97; 98; 99; 100; 101; 102]%N.
Proof.
  unfold isLowerHex. intros H.
  apply orb_prop in H as [H|H]; apply andb_prop in H as [Hlo Hhi];
    apply N.leb_le in Hlo, Hhi; simpl.
  - assert (c = 48 \/ c = 49 \/ c = 50 \/ c = 51 \/ c = 52 \/ c = 53 \/ c = 54
            \/ c = 55 \/ c = 56 \/ c = 57)%N as Hc by lia.
    intuition auto.
  - assert (c = 97 \/ c = 98 \/ c = 99 \/ c = 100 \/ c = 101 \/ c = 102)%N
      as Hc by lia.
    intuition auto.
Qed.

Ltac each_hex H :=
  apply isLowerHex_cases in H; simpl in H;
  repeat (destruct H as [H|H]; [symmetry in H; subst|]); try contradiction.

Lemma nibble_cases (d : Z) :
  0 <= d < 16 ->
  In d [0; 1; 2; 3; 4; 5; 6; 7; 8; 9; 10; 11; 12; 13; 14; 15].
Proof.
  intros H. simpl.
  assert (d = 0 \/ d = 1 \/ d = 2 \/ d = 3 \/ d = 4 \/ d = 5 \/ d = 6 \/ d = 7
          \/ d = 8 \/ d = 9 \/ d = 10 \/ d = 11 \/ d = 12 \/ d = 13 \/ d = 14
          \/ d = 15) as Hd by lia.
  intuition auto.
Qed.

Ltac each_nibble H :=
  apply nibble_cases in H; simpl in H;
  repeat (destruct H as [H|H]; [symmetry in H; subst|]); try contradiction.

Lemma hexDigit_lower (d : Z) : 0 <= d < 16 -> isLowerHex (hexDigit d) = true.
Proof. intros H. each_nibble H; reflexivity. Qed.

Lemma hexValue_hexDigit (d : Z) : 0 <= d < 16 -> hexValue (hexDigit d) = d.
Proof. intros H. each_nibble H; reflexivity. Qed.

Lemma hexDigit_hexValue (c : N) : isLowerHex c = true -> hexDigit (hexValue c) = c.
Proof. intros H. each_hex H; reflexivity. Qed.

Lemma hexValue_range (c : N) : isLowerHex c = true -> 0 <= hexValue c < 16.
Proof. intros H. each_hex H; vm_compute; (split; [discriminate|reflexivity]). Qed.

Lemma lowerHex_not_hyphen (c : N) : isLowerHex c = true -> negb (c =? 45)%N = true.
Proof. intros H. each_hex H; reflexivity. Qed.

Lemma lowerHex_ascii (c : N) : isLowerHex c = true -> isAscii c.
Proof. intros H. each_hex H; reflexivity. Qed.

Lemma lowerHex_lowerUnit (c : N) : isLowerHex c = true -> lowerUnit c = c.
Proof. intros H. each_hex H; reflexivity. Qed.

Lemma parseInt16_pair (a b : N) :
  isLowerHex a = true -> isLowerHex b = true ->
  parseInt16 [a; b] = Some (16 * hexValue a + hexValue b).
Proof. intros Ha Hb. each_hex Ha; each_hex Hb; reflexivity. Qed.

Lemma toString16_small (n : Z) : n < 16 -> toString16 n = [hexDigit n].
Proof.
  intros H. rewrite toString16_equation_1.
  destruct (Z_lt_dec n 16); [reflexivity|lia].
Qed.

Lemma toString16_large (n : Z) :
  16 <= n -> toString16 n = toString16 (n / 16) ++ [hexDigit (n mod 16)].
Proof.
  intros H. rewrite toString16_equation_1.
  destruct (Z_lt_dec n 16); [lia|reflexivity].
Qed.

Lemma padStart_toString16_byte (b : Z) :
  is_byte b ->
  padStart (toString16 b) 2 48%N = [hexDigit (b / 16); hexDigit (b mod 16)].
Proof.
  unfold is_byte, in_range. intros Hb.
  destruct (Z_lt_dec b 16) as [Hlt|Hge].
  - rewrite toString16_small by exact Hlt.
    rewrite Z.div_small, Z.mod_small by lia. reflexivity.
  - rewrite toString16_large by lia.
    rewrite toString16_small by (apply Z.div_lt_upper_bound; lia).
    reflexivity.
Qed.

Lemma flat_map_hex (bytes : list Z) :
  Forall is_byte bytes ->
  flat_map (fun b => padStart (toString16 b) 2 48%N) bytes = hexOfBytes bytes.
Proof.
  induction 1 as [|b bytes Hb _ IH]; [reflexivity|].
  unfold hexOfBytes. simpl. rewrite IH, padStart_toString16_byte by exact Hb.
  reflexivity.
Qed.

Lemma hexOfBytes_length (bytes : list Z) :
  length (hexOfBytes bytes) = (2 * length bytes)%nat.
Proof.
  induction bytes as [|b bytes IH]; [reflexivity|].
  change (hexOfBytes (b :: bytes))
    with (hexDigit (b / 16) :: hexDigit (b mod 16) :: hexOfBytes bytes).
  simpl length. rewrite IH. lia.
Qed.

Lemma byte_nibbles (b : Z) : is_byte b -> 0 <= b / 16 < 16 /\ 0 <= b mod 16 < 16.
Proof.
  unfold is_byte, in_range. intros Hb. split.
  - split; [apply Z.div_pos; lia|apply Z.div_lt_upper_bound; lia].
  - apply Z.mod_pos_bound. lia.
Qed.

Lemma hexOfBytes_lower (bytes : list Z) :
  Forall is_byte bytes -> Forall (fun c => isLowerHex c = true) (hexOfBytes bytes).
Proof.
  induction 1 as [|b bytes Hb _ IH]; [constructor|].
  destruct (byte_nibbles b Hb) as [Hh Hl].
  change (hexOfBytes (b :: bytes))
    with (hexDigit (b / 16) :: hexDigit (b mod 16) :: hexOfBytes bytes).
  repeat constructor; auto using hexDigit_lower.
Qed.

Lemma bytesOfHex_hexOfBytes (bytes : list Z) :
  Forall is_byte bytes -> bytesOfHex (hexOfBytes bytes) = bytes.
Proof.
  induction 1 as [|b bytes Hb _ IH]; [reflexivity|].
  destruct (byte_nibbles b Hb) as [Hh Hl].
  change (hexOfBytes (b :: bytes))
    with (hexDigit (b / 16) :: hexDigit (b mod 16) :: hexOfBytes bytes).
  simpl bytesOfHex. rewrite IH, !hexValue_hexDigit by assumption.
  f_equal. pose proof (Z.div_mod b 16 ltac:(lia)). lia.
Qed.

Lemma bytesOfHex_spec (n : nat) :
  forall s, length s = (2 * n)%nat -> Forall (fun c => isLowerHex c = true) s ->
    length (bytesOfHex s) = n
    /\ Forall is_byte (bytesOfHex s)
    /\ hexOfBytes (bytesOfHex s) = s.
Proof.
  induction n as [|n IH]; intros s Hlen Hs.
  - destruct s; [|discriminate]. repeat split. constructor.
  - destruct s as [|a [|b s]]; simpl in Hlen; try lia.
    apply Forall_cons in Hs as [Ha Hs']. apply Forall_cons in Hs' as [Hb Hs''].
    destruct (IH s ltac:(simpl in Hlen; lia) Hs'') as (IH1 & IH2 & IH3).
    pose proof (hexValue_range a Ha). pose proof (hexValue_range b Hb).
    simpl bytesOfHex. repeat split.
    + simpl. rewrite IH1. reflexivity.
    + constructor; [unfold is_byte, in_range; lia|exact IH2].
    + change (hexOfBytes (?x :: ?l))
        with (hexDigit (x / 16) :: hexDigit (x mod 16) :: hexOfBytes l).
      rewrite IH3.
      replace ((16 * hexValue a + hexValue b) / 16) with (hexValue a)
        by (apply (Z.div_unique _ 16 _ (hexValue b)); lia).
      replace ((16 * hexValue a + hexValue b) mod 16) with (hexValue b)
        by (apply (Z.mod_unique _ 16 (hexValue a)); lia).
      rewrite !hexDigit_hexValue by assumption. reflexivity.
Qed.

(** ** The loop of parseUUID *)

Lemma substring_take_drop (s : jsstring) (a b : nat) :
  (a <= b)%nat -> substring s a b = take (b - a) (drop a s).
Proof.
  intros Hab. unfold substring.
  rewrite Nat.max_r, Nat.min_l by exact Hab. reflexivity.
Qed.

Lemma forallb_Forall_lowerHex (s : jsstring) :
  forallb isLowerHex s = true <-> Forall (fun c => isLowerHex c = true) s.
Proof.
  induction s as [|c s IH]; simpl.
  - split; [constructor|reflexivity].
  - rewrite andb_true_iff, IH, Forall_cons. reflexivity.
Qed.

Lemma parseUUID_loop_hex (n : nat) :
  forall (i : nat) (cleanUUID : jsstring) (bytes : list Z),
    Forall (fun c => isLowerHex c = true) cleanUUID ->
    length cleanUUID = (2 * (i + n))%nat ->
    length bytes = (i + n)%nat ->
    Index.parseUUID_loop n i cleanUUID bytes
    = Return (take i bytes ++ bytesOfHex (drop (2 * i) cleanUUID)).
Proof.
  induction n as [|n IH]; intros i clean bytes Hhex Hlen Hbytes.
  - simpl. rewrite take_ge, drop_ge by lia. rewrite app_nil_r. reflexivity.
  - pose proof (length_drop clean (2 * i)) as Hdrop.
    pose proof (Forall_drop _ (2 * i) _ Hhex) as Hhex'.
    destruct (drop (2 * i) clean) as [|a [|b rest]] eqn:Hd;
      simpl in Hdrop; try lia.
    apply Forall_cons in Hhex' as [Ha Hhex']. apply Forall_cons in Hhex' as [Hb _].
    assert (Hrest : drop (2 * S i) clean = rest).
    { replace (2 * S i)%nat with (2 * i + 2)%nat by lia.
      rewrite <- drop_drop, Hd. reflexivity. }
    cbn [Index.parseUUID_loop].
    rewrite substring_take_drop by lia.
    replace (i * 2 + 2 - i * 2)%nat with 2%nat by lia.
    rewrite (Nat.mul_comm i 2), Hd.
    change (take 2 (a :: b :: rest)) with [a; b].
    rewrite (parseInt16_pair a b Ha Hb).
    pose proof (hexValue_range a Ha). pose proof (hexValue_range b Hb).
    unfold setByte. rewrite Z.mod_small by lia.
    rewrite (IH (S i)); [|exact Hhex|lia|rewrite length_insert; lia].
    rewrite Hrest. cbn [bytesOfHex].
    rewrite (take_S_r _ i (16 * hexValue a + hexValue b))
      by (apply list_lookup_insert_eq; lia).
    rewrite take_insert_ge by lia. rewrite <- app_assoc. reflexivity.
Qed.

(** ** parseUUID, by cases *)

Lemma parseUUID_wrong_length (toLowerCase : jsstring -> jsstring) (s : jsstring) :
  length (toLowerCase (removeHyphens s)) <> 32%nat ->
  Index.parseUUID toLowerCase s
  = Raise (UUIDLengthError (length (toLowerCase (removeHyphens s)))).
Proof.
  intros Hlen. unfold Index.parseUUID.
  destruct (length _ =? 32)%nat eqn:E; [apply Nat.eqb_eq in E; lia|reflexivity].
Qed.

Lemma parseUUID_not_hex (toLowerCase : jsstring -> jsstring) (s : jsstring) :
  length (toLowerCase (removeHyphens s)) = 32%nat ->
  ~ Forall (fun c => isLowerHex c = true) (toLowerCase (removeHyphens s)) ->
  Index.parseUUID toLowerCase s = Raise UUIDFormatError.
Proof.
  intros Hlen Hhex. unfold Index.parseUUID, lowerHex32_test. rewrite Hlen.
  destruct (forallb isLowerHex _) eqn:E; [|reflexivity].
  apply forallb_Forall_lowerHex in E. contradiction.
Qed.

Lemma parseUUID_hex (toLowerCase : jsstring -> jsstring) (s : jsstring) :
  length (toLowerCase (removeHyphens s)) = 32%nat ->
  Forall (fun c => isLowerHex c = true) (toLowerCase (removeHyphens s)) ->
  Index.parseUUID toLowerCase s
  = Return (bytesOfHex (toLowerCase (removeHyphens s))).
Proof.
  intros Hlen Hhex. unfold Index.parseUUID, lowerHex32_test. rewrite Hlen.
  apply forallb_Forall_lowerHex in Hhex as Hb. rewrite Hb. cbn [Nat.eqb negb andb].
  rewrite (parseUUID_loop_hex 16 0); [reflexivity|exact Hhex|exact Hlen|reflexivity].
Qed.

Lemma parseUUID_Return_inv (toLowerCase : jsstring -> jsstring)
    (s : jsstring) (bytes : list Z) :
  Index.parseUUID toLowerCase s = Return bytes ->
  length (toLowerCase (removeHyphens s)) = 32%nat
  /\ Forall (fun c => isLowerHex c = true) (toLowerCase (removeHyphens s))
  /\ bytes = bytesOfHex (toLowerCase (removeHyphens s)).
Proof.
  intros Hparse.
  destruct (Nat.eq_dec (length (toLowerCase (removeHyphens s))) 32%nat) as [Hlen|Hlen];
    [|rewrite parseUUID_wrong_length in Hparse by exact Hlen; discriminate].
  destruct (forallb isLowerHex (toLowerCase (removeHyphens s))) eqn:E.
  - apply forallb_Forall_lowerHex in E.
    rewrite parseUUID_hex in Hparse by assumption.
    injection Hparse as <-. auto.
  - rewrite parseUUID_not_hex in Hparse; [discriminate|exact Hlen|].
    intros Hall. apply forallb_Forall_lowerHex in Hall. congruence.
Qed.

(** ** stringifyUUID, in closed form *)

Lemma stringifyUUID_wrong_length (bytes : list Z) (includeHyphens : bool) :
  length bytes <> 16%nat ->
  Index.stringifyUUID bytes includeHyphens = Raise (BytesArrayError (length bytes)).
Proof.
  intros Hlen. unfold Index.stringifyUUID.
  destruct (length bytes =? 16)%nat eqn:E; [apply Nat.eqb_eq in E; lia|reflexivity].
Qed.

Lemma stringifyUUID_hex (bytes : list Z) (includeHyphens : bool) :
  length bytes = 16%nat -> Forall is_byte bytes ->
  Index.stringifyUUID bytes includeHyphens
  = Return (if includeHyphens then hyphenate (hexOfBytes bytes)
            else hexOfBytes bytes).
Proof.
  intros Hlen Hbytes. unfold Index.stringifyUUID.
  rewrite Hlen, flat_map_hex by exact Hbytes.
  destruct includeHyphens; reflexivity.
Qed.

Lemma removeHyphens_app (s t : jsstring) :
  removeHyphens (s ++ t) = removeHyphens s ++ removeHyphens t.
Proof. apply List.filter_app. Qed.

Lemma removeHyphens_id (s : jsstring) :
  Forall (fun c => isLowerHex c = true) s -> removeHyphens s = s.
Proof.
  induction 1 as [|c s Hc _ IH]; [reflexivity|].
  unfold removeHyphens in *. simpl.
  rewrite (lowerHex_not_hyphen c Hc), IH. reflexivity.
Qed.

Lemma hyphenate_pieces (hex : jsstring) :
  take 8 hex ++ take 4 (drop 8 hex) ++ take 4 (drop 12 hex)
  ++ take 4 (drop 16 hex) ++ drop 20 hex = hex.
Proof.
  rewrite !app_assoc.
  rewrite (take_take_drop hex 8 4). change (8 + 4)%nat with 12%nat.
  rewrite (take_take_drop hex 12 4). change (12 + 4)%nat with 16%nat.
  rewrite (take_take_drop hex 16 4). change (16 + 4)%nat with 20%nat.
  apply take_drop.
Qed.

Lemma removeHyphens_hyphenate (hex : jsstring) :
  Forall (fun c => isLowerHex c = true) hex ->
  removeHyphens (hyphenate hex) = hex.
Proof.
  intros Hhex. unfold hyphenate.
  rewrite !removeHyphens_app.
  change (removeHyphens [45%N]) with (@nil N).
  rewrite !removeHyphens_id by (try apply Forall_take; try apply Forall_drop; exact Hhex).
  simpl app. apply hyphenate_pieces.
Qed.

Lemma lowering_hex (toLowerCase : jsstring -> jsstring) (hex : jsstring) :
  ascii_lowering toLowerCase ->
  Forall (fun c => isLowerHex c = true) hex -> toLowerCase hex = hex.
Proof.
  intros Hlow Hhex. rewrite Hlow.
  - induction Hhex as [|c s Hc _ IH]; [reflexivity|].
    simpl. rewrite (lowerHex_lowerUnit c Hc), IH. reflexivity.
  - eapply Forall_impl; [exact Hhex|]. intros c Hc. apply lowerHex_ascii, Hc.
Qed.

Lemma asciiToLowerCase_lowering : ascii_lowering asciiToLowerCase.
Proof. intros s _. reflexivity. Qed.

(** ** Case and the ASCII range *)

Lemma ascii_hex_digit (c : N) :
  isAscii c ->
  isLowerHex (lowerUnit c) = isHexDigit c
  /\ (isHexDigit c = true -> hexValue (lowerUnit c) = hexValue c).
Proof.
  intros Hc. unfold isAscii in Hc.
  assert (Hall : forallb (fun n =>
            let c := N.of_nat n in
            Bool.eqb (isLowerHex (lowerUnit c)) (isHexDigit c)
            && (negb (isHexDigit c) || (hexValue (lowerUnit c) =? hexValue c)))
            (seq 0 128) = true) by (vm_compute; reflexivity).
  rewrite forallb_forall in Hall.
  specialize (Hall (N.to_nat c) ltac:(apply in_seq; lia)).
  cbv zeta in Hall. rewrite N2Nat.id in Hall.
  apply andb_prop in Hall as [H1 H2]. apply Bool.eqb_prop in H1.
  split; [exact H1|]. intros Hd. rewrite Hd in H2. simpl in H2.
  apply Z.eqb_eq. exact H2.
Qed.

Lemma removeHyphens_ascii (s : jsstring) :
  Forall isAscii s -> Forall isAscii (removeHyphens s).
Proof.
  induction 1 as [|c s Hc _ IH]; [constructor|].
  unfold removeHyphens in *. simpl. destruct (negb (c =? 45)%N); [constructor|]; auto.
Qed.

Lemma lowered_hex (s : jsstring) :
  Forall isAscii s ->
  forallb isLowerHex (map lowerUnit s) = forallb isHexDigit s.
Proof.
  induction 1 as [|c s Hc _ IH]; [reflexivity|].
  simpl. rewrite IH, (proj1 (ascii_hex_digit c Hc)). reflexivity.
Qed.

Lemma lowered_bytes (n : nat) :
  forall s, length s = (2 * n)%nat -> Forall isAscii s ->
    forallb isHexDigit s = true ->
    bytesOfHex (map lowerUnit s) = bytesOfHex s.
Proof.
  induction n as [|n IH]; intros s Hlen Hascii Hhex.
  - destruct s; [reflexivity|discriminate].
  - destruct s as [|a [|b s]]; simpl in Hlen; try lia.
    apply Forall_cons in Hascii as [Ha Hascii]. apply Forall_cons in Hascii as [Hb Hascii].
    simpl in Hhex. apply andb_prop in Hhex as [Hha Hhex].
    apply andb_prop in Hhex as [Hhb Hhex].
    simpl. rewrite (IH s) by (lia || assumption).
    rewrite (proj2 (ascii_hex_digit a Ha) Hha), (proj2 (ascii_hex_digit b Hb) Hhb).
    reflexivity.
Qed.

(** ** Bits of a version 4 UUID *)

Lemma lor_pow2 (x k : Z) :
  0 <= k -> 0 <= x < 2 ^ k -> Z.lor x (2 ^ k) = x + 2 ^ k.
Proof.
  intros Hk Hx.
  assert (Hland : Z.land x (2 ^ k) = 0).
  { apply Z.bits_inj'. intros n Hn. rewrite Z.land_spec, Z.bits_0.
    rewrite Z.pow2_bits_eqb by lia.
    destruct (Z.eqb_spec k n) as [->|Hne]; [|apply andb_false_r].
    rewrite <- (Z.mod_small x (2 ^ n)) by lia.
    rewrite Z.mod_pow2_bits_high by lia. reflexivity. }
  rewrite <- Z.lxor_lor by exact Hland.
  symmetry. apply Z.add_nocarry_lxor. exact Hland.
Qed.

Lemma version_bits (b : Z) : Z.lor (Z.land b 0x0f) 0x40 = 0x40 + b mod 16.
Proof.
  change 0x0f with (Z.ones 4). rewrite Z.land_ones by lia.
  change 0x40 with (2 ^ 6). change (2 ^ 4) with 16.
  pose proof (Z.mod_pos_bound b 16 ltac:(lia)).
  rewrite lor_pow2; [lia|lia|]. change (2 ^ 6) with 64. lia.
Qed.

Lemma variant_bits (b : Z) : Z.lor (Z.land b 0x3f) 0x80 = 0x80 + b mod 64.
Proof.
  change 0x3f with (Z.ones 6). rewrite Z.land_ones by lia.
  change 0x80 with (2 ^ 7). change (2 ^ 6) with 64.
  pose proof (Z.mod_pos_bound b 64 ltac:(lia)).
  rewrite lor_pow2; [lia|lia|]. change (2 ^ 7) with 128. lia.
Qed.

Lemma generateUUIDv4_insert (random : list Z) :
  Index.generateUUIDv4 random
  = <[8%nat := 0x80 + getByte random 8 mod 64]>
      (<[6%nat := 0x40 + getByte random 6 mod 16]> random).
Proof.
  unfold Index.generateUUIDv4, setByte.
  rewrite version_bits, variant_bits.
  assert (H8 : getByte (<[6%nat:=(0x40 + getByte random 6 mod 16) mod 256]> random) 8
               = getByte random 8).
  { unfold getByte. rewrite list_lookup_insert_ne by lia. reflexivity. }
  rewrite H8.
  pose proof (Z.mod_pos_bound (getByte random 6) 16 ltac:(lia)).
  pose proof (Z.mod_pos_bound (getByte random 8) 64 ltac:(lia)).
  rewrite (Z.mod_small (0x40 + getByte random 6 mod 16) 256) by lia.
  rewrite (Z.mod_small (0x80 + getByte random 8 mod 64) 256) by lia.
  reflexivity.
Qed.

Lemma hexOfBytes_lookup (bytes : list Z) :
  forall (i : nat) (b : Z),
    bytes !! i = Some b ->
    hexOfBytes bytes !! (2 * i)%nat = Some (hexDigit (b / 16))
    /\ hexOfBytes bytes !! (2 * i + 1)%nat = Some (hexDigit (b mod 16)).
Proof.
  induction bytes as [|b0 bytes IH]; intros i b Hi; [discriminate|].
  change (hexOfBytes (b0 :: bytes))
    with (hexDigit (b0 / 16) :: hexDigit (b0 mod 16) :: hexOfBytes bytes).
  destruct i as [|i].
  - injection Hi as ->. split; reflexivity.
  - simpl in Hi. destruct (IH i b Hi) as [H1 H2].
    replace (2 * S i)%nat with (S (S (2 * i))) by lia.
    replace (S (S (2 * i)) + 1)%nat with (S (S (2 * i + 1))) by lia.
    split; assumption.
Qed.

Lemma hyphenate_layout (hex : jsstring) :
  length hex = 32%nat ->
  length (hyphenate hex) = 36%nat
  /\ hyphenate hex !! 8%nat = Some 45%N
  /\ hyphenate hex !! 13%nat = Some 45%N
  /\ hyphenate hex !! 18%nat = Some 45%N
  /\ hyphenate hex !! 23%nat = Some 45%N
  /\ hyphenate hex !! 14%nat = hex !! 12%nat
  /\ hyphenate hex !! 19%nat = hex !! 16%nat.
Proof.
  intros Hlen.
  do 32 (destruct hex as [|? hex]; [discriminate Hlen|]).
  destruct hex; [|discriminate Hlen].
  repeat split.
Qed.

(** ** The reverse table, for any alphabet *)

Lemma fill_reverse_spec (alphabet : jsstring) :
  forall (i : nat) (table : list Z),
    NoDup alphabet ->
    Forall (fun c => (N.to_nat c < length table)%nat) alphabet ->
    length (fill_reverse i alphabet table) = length table
    /\ (forall k c, alphabet !! k = Some c ->
          fill_reverse i alphabet table !! N.to_nat c = Some (Z.of_nat (i + k)))
    /\ (forall j, (forall c, c ∈ alphabet -> N.to_nat c <> j) ->
          fill_reverse i alphabet table !! j = table !! j).
Proof.
  induction alphabet as [|c0 alphabet IH]; intros i table Hnodup Hcodes.
  - split; [reflexivity|]. split; [intros k c Hk; discriminate|reflexivity].
  - apply NoDup_cons in Hnodup as [Hfresh Hnodup].
    apply Forall_cons in Hcodes as [Hc0 Hcodes].
    destruct (IH (S i) (<[N.to_nat c0 := Z.of_nat i]> table) Hnodup)
      as (IHlen & IHin & IHout).
    { rewrite length_insert. exact Hcodes. }
    simpl fill_reverse. rewrite length_insert in IHlen.
    split; [exact IHlen|]. split.
    + intros [|k] c Hk.
      * injection Hk as <-. rewrite IHout.
        -- rewrite Nat.add_0_r. apply list_lookup_insert_eq. exact Hc0.
        -- intros c Hc Heq. apply N2Nat.inj in Heq. subst c. contradiction.
      * simpl in Hk. rewrite (IHin k c Hk). do 2 f_equal. lia.
    + intros j Hj. rewrite IHout.
      * apply list_lookup_insert_ne. apply Hj. left.
      * intros c Hc. apply Hj. right. exact Hc.
Qed.

(** ** Failures of decode *)

Lemma decode_first_invalid (p : jsstring) (dp : list Z) (c : N) (rest : jsstring) :
  length (p ++ c :: rest) = 22%nat -> spells p dp -> digit_of c = None ->
  decode (p ++ c :: rest) = Throw (char_error (length p) c).
Proof.
  intros Hlen Hp Hc.
  assert (Hshort : (length dp <= 21)%nat).
  { rewrite <- (spells_length p dp Hp).
    rewrite length_app in Hlen. simpl in Hlen. lia. }
  pose proof (short_value_bound dp (spells_digits p dp Hp) Hshort) as Hv.
  rewrite (decode_loop_result _ Hlen).
  rewrite (decode_loop_first_invalid p dp Hp 0%nat 0 c rest) by (lia || exact Hc).
  reflexivity.
Qed.

Lemma max_string_value :
  exists ds, spells (str "YcVfxkQb6JRzqk5kF2tNLv") ds /\ value_from 0 ds = MAX_UUID.
Proof.
  assert (Hdec : decode (str "YcVfxkQb6JRzqk5kF2tNLv") = Ok (replicate 16 0xFF))
    by (vm_compute; reflexivity).
  destruct (decode_Ok_inv _ _ Hdec) as (ds & _ & Hsp & Hrange & Hdata).
  exists ds. split; [exact Hsp|].
  rewrite <- (be_value_integerToBytes _ Hrange), <- Hdata.
  vm_compute. reflexivity.
Qed.

(** ** Further properties of the Base58 module *)

(** X1. Distinct 16-byte buffers have distinct encodings. *)
Theorem encode_injective (a b : list Z)
    (Hla : length a = 16%nat) (Hlb : length b = 16%nat)
    (Hba : Forall is_byte a) (Hbb : Forall is_byte b)
    (Hne : a <> b) :
  encode a <> encode b.
Proof.
  intros Heq.
  destruct (roundtrip_buffer a Hla Hba) as (sa & Ha & Hda).
  destruct (roundtrip_buffer b Hlb Hbb) as (sb & Hb & Hdb).
  congruence.
Qed.

Lemma encode_injective_witness :
  length (replicate 15 0 ++ [1]) = 16%nat
  /\ length (replicate 15 0 ++ [2]) = 16%nat
  /\ encode (replicate 15 0 ++ [1]) <> encode (replicate 15 0 ++ [2]).
Proof.
  split; [reflexivity|]. split; [reflexivity|].
  apply (encode_injective (replicate 15 0 ++ [1]) (replicate 15 0 ++ [2]));
    [reflexivity|reflexivity|simpl; bytes_ok|simpl; bytes_ok|discriminate].
Defined.

(** X2. The strings [decode] accepts are exactly the encodings of the
    16-byte buffers. *)
Theorem decode_accepts_encodings (s : jsstring) :
  (exists data, decode s = Ok data)
  <-> (exists data, length data = 16%nat /\ Forall is_byte data
                    /\ encode data = Ok s).
Proof.
  split.
  - intros [data Hdec]. exists data.
    destruct (decode_Ok_inv s data Hdec) as (ds & _ & _ & _ & Hdata).
    split; [subst data; apply integerToBytes_length|].
    split; [subst data; apply integerToBytes_bytes|].
    apply encode_of_decode. exact Hdec.
  - intros (data & Hlen & Hbytes & Henc). exists data.
    destruct (roundtrip_buffer data Hlen Hbytes) as (s' & Henc' & Hdec).
    congruence.
Qed.

(** X3. Every failure of [decode] is one of four: the empty string, a
    wrong length, a character outside the alphabet (the first one is
    reported), or an overflow on 22 alphabet symbols. The reverse table
    is never read out of range. *)
Theorem decode_failures (s : jsstring) (e : Error) (Hfail : decode s = Throw e) :
  (s = [] /\ e = EmptyStringError)
  \/ (s <> [] /\ length s <> 22%nat /\ e = Base58LengthError (length s))
  \/ (length s = 22%nat
      /\ exists (i : nat) (c : N),
           s !! i = Some c /\ (c ∉ ALPHABET) /\ e = char_error i c)
  \/ (length s = 22%nat /\ Forall (fun c => c ∈ ALPHABET) s /\ e = OverflowError).
Proof.
  destruct (Nat.eq_dec (length s) 22%nat) as [Hlen|Hlen].
  - right. right.
    destruct (split_first_invalid s) as [[ds Hds]|(p & dp & c & rest & -> & Hp & Hc)].
    + right. rewrite (decode_spells s ds Hlen Hds) in Hfail.
      destruct (value_from 0 ds >? MAX_UUID); [|discriminate].
      injection Hfail as <-. split; [exact Hlen|].
      split; [exact (spells_alphabet s ds Hds)|reflexivity].
    + left. rewrite (decode_first_invalid p dp c rest Hlen Hp Hc) in Hfail.
      injection Hfail as <-. split; [exact Hlen|].
      exists (length p), c. repeat split.
      * rewrite lookup_app_r by lia. rewrite Nat.sub_diag. reflexivity.
      * intros Hin. apply in_alphabet_digit_of in Hin as [d Hd]. congruence.
  - rewrite (decode_wrong_length s Hlen) in Hfail. injection Hfail as <-.
    destruct s as [|c s]; [left; auto|].
    right. left. repeat split; [discriminate|exact Hlen].
Qed.

Lemma decode_failures_witness :
  decode (str "zzzzzzzzzzzzzzzzzzzzz0") = Throw (Base58CharError 21 48)
  /\ ((str "zzzzzzzzzzzzzzzzzzzzz0" = [] /\ Base58CharError 21 48 = EmptyStringError)
      \/ (str "zzzzzzzzzzzzzzzzzzzzz0" <> []
          /\ length (str "zzzzzzzzzzzzzzzzzzzzz0") <> 22%nat
          /\ Base58CharError 21 48
             = Base58LengthError (length (str "zzzzzzzzzzzzzzzzzzzzz0")))
      \/ (length (str "zzzzzzzzzzzzzzzzzzzzz0") = 22%nat
          /\ exists (i : nat) (c : N),
               str "zzzzzzzzzzzzzzzzzzzzz0" !! i = Some c /\ (c ∉ ALPHABET)
               /\ Base58CharError 21 48 = char_error i c)
      \/ (length (str "zzzzzzzzzzzzzzzzzzzzz0") = 22%nat
          /\ Forall (fun c => c ∈ ALPHABET) (str "zzzzzzzzzzzzzzzzzzzzz0")
          /\ Base58CharError 21 48 = OverflowError)).
Proof.
  assert (H : decode (str "zzzzzzzzzzzzzzzzzzzzz0") = Throw (Base58CharError 21 48))
    by (vm_compute; reflexivity).
  split; [exact H|].
  exact (decode_failures _ _ H).
Defined.

(** X4. The string [encode] returns for a 16-byte buffer is the 22-digit
    base-58 numeral, most significant digit first, of the big-endian
    value of the buffer. *)
Theorem encode_value (data : list Z)
    (Hlen : length data = 16%nat) (Hbytes : Forall is_byte data) :
  exists s ds,
    encode data = Ok s /\ spells s ds /\ length ds = 22%nat
    /\ value_from 0 ds = be_value data.
Proof.
  pose proof (be_value_bound data Hlen Hbytes) as Hv.
  destruct (digits22_spec (be_value data) Hv) as (Hlen22 & Hdig & Hval).
  exists (join_symbols (digits22 (be_value data))), (digits22 (be_value data)).
  split; [apply encode_digits; assumption|].
  split; [apply join_symbols_spells; exact Hdig|]. auto.
Qed.

Lemma encode_value_witness :
  length (replicate 15 0 ++ [9]) = 16%nat
  /\ Forall is_byte (replicate 15 0 ++ [9])
  /\ exists s ds,
       encode (replicate 15 0 ++ [9]) = Ok s /\ spells s ds
       /\ length ds = 22%nat
       /\ value_from 0 ds = be_value (replicate 15 0 ++ [9]).
Proof.
  assert (Hb : Forall is_byte (replicate 15 0 ++ [9])) by (simpl; bytes_ok).
  split; [reflexivity|]. split; [exact Hb|].
  exact (encode_value (replicate 15 0 ++ [9]) eq_refl Hb).
Defined.

(** X5. When [decode] accepts a string, the big-endian value of the
    buffer it returns is the value of the string read as a base-58
    numeral, and that value is at most 2^128 - 1. *)
Theorem decode_value (s : jsstring) (data : list Z) (Hdec : decode s = Ok data) :
  exists ds,
    spells s ds /\ be_value data = value_from 0 ds
    /\ 0 <= value_from 0 ds <= MAX_UUID.
Proof.
  destruct (decode_Ok_inv s data Hdec) as (ds & _ & Hsp & Hrange & ->).
  exists ds. split; [exact Hsp|]. split; [|exact Hrange].
  apply be_value_integerToBytes. exact Hrange.
Qed.

Lemma decode_value_witness :
  decode (str "111111111111111111111A") = Ok (replicate 15 0 ++ [9])
  /\ exists ds,
       spells (str "111111111111111111111A") ds
       /\ be_value (replicate 15 0 ++ [9]) = value_from 0 ds
       /\ 0 <= value_from 0 ds <= MAX_UUID.
Proof.
  assert (H : decode (str "111111111111111111111A") = Ok (replicate 15 0 ++ [9]))
    by (vm_compute; reflexivity).
  split; [exact H|].
  exact (decode_value _ _ H).
Defined.

(** X6. A string of 22 alphabet symbols overflows exactly when it comes
    after YcVfxkQb6JRzqk5kF2tNLv, the encoding of 2^128 - 1, in the order
    of the character codes. *)
Theorem overflow_boundary (s : jsstring)
    (Hlen : length s = 22%nat) (Hs : Forall (fun c => c ∈ ALPHABET) s) :
  decode s = Throw OverflowError
  <-> str_ltb (str "YcVfxkQb6JRzqk5kF2tNLv") s = true.
Proof.
  destruct (alphabet_spells s Hs) as [ds Hsp].
  destruct max_string_value as (dm & Hm & Hvm).
  assert (Hlens : length dm = length ds).
  { rewrite <- (spells_length _ _ Hm), <- (spells_length _ _ Hsp), Hlen.
    reflexivity. }
  rewrite <- (value_lt_str_ltb _ dm Hm s ds Hsp Hlens), Hvm.
  rewrite (decode_spells s ds Hlen Hsp).
  destruct (value_from 0 ds >? MAX_UUID) eqn:E.
  - apply Z.gtb_gt in E. split; [lia|reflexivity].
  - pose proof (Zgt_cases (value_from 0 ds) MAX_UUID) as Hc. rewrite E in Hc.
    split; [discriminate|lia].
Qed.

Lemma overflow_boundary_witness :
  length (str "YcVfxkQb6JRzqk5kF2tNLw") = 22%nat
  /\ Forall (fun c => c ∈ ALPHABET) (str "YcVfxkQb6JRzqk5kF2tNLw")
  /\ (decode (str "YcVfxkQb6JRzqk5kF2tNLw") = Throw OverflowError
      <-> str_ltb (str "YcVfxkQb6JRzqk5kF2tNLv") (str "YcVfxkQb6JRzqk5kF2tNLw")
          = true).
Proof.
  assert (Hs : Forall (fun c => c ∈ ALPHABET) (str "YcVfxkQb6JRzqk5kF2tNLw")).
  { apply (bool_decide_unpack _). vm_compute. reflexivity. }
  split; [reflexivity|]. split; [exact Hs|].
  exact (overflow_boundary (str "YcVfxkQb6JRzqk5kF2tNLw") eq_refl Hs).
Defined.

(** X7. The loop that fills the reverse table inverts any alphabet of
    distinct characters with codes below 256: the entry at the code of
    the [k]-th character is [k], every other entry keeps the sentinel
    255, and the table keeps its 256 entries. *)
Theorem fill_reverse_inverse (alphabet : jsstring)
    (Hnodup : NoDup alphabet)
    (Hcodes : Forall (fun c => (c < 256)%N) alphabet) :
  length (fill_reverse 0 alphabet (replicate 256 255)) = 256%nat
  /\ (forall (k : nat) (c : N),
        alphabet !! k = Some c ->
        fill_reverse 0 alphabet (replicate 256 255) !! N.to_nat c
        = Some (Z.of_nat k))
  /\ (forall c : N,
        (c < 256)%N -> c ∉ alphabet ->
        fill_reverse 0 alphabet (replicate 256 255) !! N.to_nat c = Some 255).
Proof.
  destruct (fill_reverse_spec alphabet 0 (replicate 256 255) Hnodup)
    as (Hlen & Hin & Hout).
  { eapply Forall_impl; [exact Hcodes|]. intros c Hc. simpl in Hc.
    rewrite length_replicate. lia. }
  rewrite length_replicate in Hlen.
  split; [exact Hlen|]. split; [exact Hin|].
  intros c Hc Hnot. rewrite Hout.
  - apply lookup_replicate_2. lia.
  - intros c' Hc' Heq. apply N2Nat.inj in Heq. subst c'. contradiction.
Qed.

Lemma fill_reverse_inverse_witness :
  NoDup ALPHABET
  /\ Forall (fun c => (c < 256)%N) ALPHABET
  /\ length REVERSE_ALPHABET = 256%nat
  /\ (forall (k : nat) (c : N),
        ALPHABET !! k = Some c ->
        REVERSE_ALPHABET !! N.to_nat c = Some (Z.of_nat k))
  /\ (forall c : N,
        (c < 256)%N -> c ∉ ALPHABET ->
        REVERSE_ALPHABET !! N.to_nat c = Some 255).
Proof.
  assert (Hnodup : NoDup ALPHABET)
    by (apply (bool_decide_unpack _); vm_compute; reflexivity).
  assert (Hcodes : Forall (fun c => (c < 256)%N) ALPHABET)
    by (apply (bool_decide_unpack _); vm_compute; reflexivity).
  split; [exact Hnodup|]. split; [exact Hcodes|].
  exact (fill_reverse_inverse ALPHABET Hnodup Hcodes).
Defined.

(** ** Properties of the UUID text layer and the public functions *)

(** X8. [stringifyUUID] fails exactly on a buffer that is not 16 bytes
    long. On 16 bytes it writes each byte as two lower-case hexadecimal
    digits, high nibble first: 32 digits without hyphens, and with
    hyphens the same digits in 36 characters with a hyphen at positions
    8, 13, 18 and 23. *)
Theorem stringifyUUID_contract (bytes : list Z) (Hbytes : Forall is_byte bytes) :
  (length bytes <> 16%nat ->
   forall includeHyphens,
     Index.stringifyUUID bytes includeHyphens
     = Raise (BytesArrayError (length bytes)))
  /\ (length bytes = 16%nat ->
      Index.stringifyUUID bytes false = Return (hexOfBytes bytes)
      /\ Index.stringifyUUID bytes true = Return (hyphenate (hexOfBytes bytes))
      /\ length (hexOfBytes bytes) = 32%nat
      /\ Forall (fun c => isLowerHex c = true) (hexOfBytes bytes)
      /\ length (hyphenate (hexOfBytes bytes)) = 36%nat
      /\ removeHyphens (hyphenate (hexOfBytes bytes)) = hexOfBytes bytes
      /\ Forall (fun i => hyphenate (hexOfBytes bytes) !! i = Some 45%N)
           [8; 13; 18; 23]%nat).
Proof.
  split.
  - intros Hlen incl. apply stringifyUUID_wrong_length. exact Hlen.
  - intros Hlen.
    assert (Hlen32 : length (hexOfBytes bytes) = 32%nat)
      by (rewrite hexOfBytes_length, Hlen; reflexivity).
    pose proof (hexOfBytes_lower bytes Hbytes) as Hlower.
    destruct (hyphenate_layout _ Hlen32) as (H36 & H8 & H13 & H18 & H23 & _).
    split; [exact (stringifyUUID_hex bytes false Hlen Hbytes)|].
    split; [exact (stringifyUUID_hex bytes true Hlen Hbytes)|].
    split; [exact Hlen32|]. split; [exact Hlower|]. split; [exact H36|].
    split; [apply removeHyphens_hyphenate; exact Hlower|].
    repeat constructor; assumption.
Qed.

Lemma stringifyUUID_contract_witness :
  Forall is_byte [0x55; 0x0e; 0x84; 0x00; 0xe2; 0x9b; 0x41; 0xd4;
                  0xa7; 0x16; 0x44; 0x66; 0x55; 0x44; 0x00; 0x00]
  /\ Index.stringifyUUID [0x55; 0x0e; 0x84; 0x00; 0xe2; 0x9b; 0x41; 0xd4;
                          0xa7; 0x16; 0x44; 0x66; 0x55; 0x44; 0x00; 0x00] true
     = Return (hyphenate (hexOfBytes
                 [0x55; 0x0e; 0x84; 0x00; 0xe2; 0x9b; 0x41; 0xd4;
                  0xa7; 0x16; 0x44; 0x66; 0x55; 0x44; 0x00; 0x00])).
Proof.
  assert (H : Forall is_byte [0x55; 0x0e; 0x84; 0x00; 0xe2; 0x9b; 0x41; 0xd4;
                              0xa7; 0x16; 0x44; 0x66; 0x55; 0x44; 0x00; 0x00])
    by bytes_ok.
  split; [exact H|].
  exact (proj1 (proj2 (proj2 (stringifyUUID_contract _ H) eq_refl))).
Defined.

(** X9. Text of a buffer parses back to the buffer: for 16 bytes, with
    or without hyphens, [parseUUID] of what [stringifyUUID] returns is
    the buffer, provided [toLowerCase] lowers ASCII strings the way the
    language does. *)
Theorem parseUUID_stringifyUUID (toLowerCase : jsstring -> jsstring)
    (Hlow : ascii_lowering toLowerCase)
    (bytes : list Z) (includeHyphens : bool)
    (Hlen : length bytes = 16%nat) (Hbytes : Forall is_byte bytes) :
  exists uuid,
    Index.stringifyUUID bytes includeHyphens = Return uuid
    /\ Index.parseUUID toLowerCase uuid = Return bytes.
Proof.
  pose proof (hexOfBytes_lower bytes Hbytes) as Hlower.
  assert (Hlen32 : length (hexOfBytes bytes) = 32%nat)
    by (rewrite hexOfBytes_length, Hlen; reflexivity).
  eexists. split; [apply stringifyUUID_hex; assumption|].
  assert (Hclean : toLowerCase
                     (removeHyphens (if includeHyphens
                                     then hyphenate (hexOfBytes bytes)
                                     else hexOfBytes bytes))
                   = hexOfBytes bytes).
  { destruct includeHyphens.
    - rewrite removeHyphens_hyphenate by exact Hlower.
      apply lowering_hex; assumption.
    - rewrite removeHyphens_id by exact Hlower.
      apply lowering_hex; assumption. }
  rewrite parseUUID_hex; rewrite Hclean; try assumption.
  rewrite bytesOfHex_hexOfBytes by exact Hbytes. reflexivity.
Qed.

Lemma parseUUID_stringifyUUID_witness :
  ascii_lowering asciiToLowerCase
  /\ Forall is_byte [0xde; 0xad; 0xbe; 0xef; 0xca; 0xfe; 0xba; 0xbe;
                     0x01; 0x23; 0x45; 0x67; 0x89; 0xab; 0xcd; 0xef]
  /\ exists uuid,
       Index.stringifyUUID [0xde; 0xad; 0xbe; 0xef; 0xca; 0xfe; 0xba; 0xbe;
                            0x01; 0x23; 0x45; 0x67; 0x89; 0xab; 0xcd; 0xef] true
       = Return uuid
       /\ Index.parseUUID asciiToLowerCase uuid
          = Return [0xde; 0xad; 0xbe; 0xef; 0xca; 0xfe; 0xba; 0xbe;
                    0x01; 0x23; 0x45; 0x67; 0x89; 0xab; 0xcd; 0xef].
Proof.
  assert (H : Forall is_byte [0xde; 0xad; 0xbe; 0xef; 0xca; 0xfe; 0xba; 0xbe;
                              0x01; 0x23; 0x45; 0x67; 0x89; 0xab; 0xcd; 0xef])
    by bytes_ok.
  split; [exact asciiToLowerCase_lowering|]. split; [exact H|].
  exact (parseUUID_stringifyUUID asciiToLowerCase asciiToLowerCase_lowering
           [0xde; 0xad; 0xbe; 0xef; 0xca; 0xfe; 0xba; 0xbe;
            0x01; 0x23; 0x45; 0x67; 0x89; 0xab; 0xcd; 0xef] true eq_refl H).
Defined.

(** X10. A parsed UUID prints in canonical form: when [parseUUID]
    accepts a string, the result is a 16-byte buffer, and
    [stringifyUUID] of it is the input with its hyphens removed and
    lowered, laid out 8-4-4-4-12 when hyphens are asked for. *)
Theorem stringifyUUID_parseUUID (toLowerCase : jsstring -> jsstring)
    (uuidStr : jsstring) (bytes : list Z)
    (Hparse : Index.parseUUID toLowerCase uuidStr = Return bytes) :
  length bytes = 16%nat
  /\ Forall is_byte bytes
  /\ Index.stringifyUUID bytes false = Return (toLowerCase (removeHyphens uuidStr))
  /\ Index.stringifyUUID bytes true
     = Return (hyphenate (toLowerCase (removeHyphens uuidStr))).
Proof.
  destruct (parseUUID_Return_inv _ _ _ Hparse) as (Hlen & Hhex & ->).
  destruct (bytesOfHex_spec 16 _ Hlen Hhex) as (H16 & Hbytes & Hback).
  split; [exact H16|]. split; [exact Hbytes|].
  rewrite !stringifyUUID_hex by assumption. rewrite Hback. auto.
Qed.

Lemma stringifyUUID_parseUUID_witness :
  Index.parseUUID asciiToLowerCase (str "550E8400E29B-41D4A716-446655440000")
  = Return [0x55; 0x0e; 0x84; 0x00; 0xe2; 0x9b; 0x41; 0xd4;
            0xa7; 0x16; 0x44; 0x66; 0x55; 0x44; 0x00; 0x00]
  /\ Index.stringifyUUID [0x55; 0x0e; 0x84; 0x00; 0xe2; 0x9b; 0x41; 0xd4;
                          0xa7; 0x16; 0x44; 0x66; 0x55; 0x44; 0x00; 0x00] true
     = Return (hyphenate (asciiToLowerCase
                 (removeHyphens (str "550E8400E29B-41D4A716-446655440000")))).
Proof.
  assert (H : Index.parseUUID asciiToLowerCase
                (str "550E8400E29B-41D4A716-446655440000")
              = Return [0x55; 0x0e; 0x84; 0x00; 0xe2; 0x9b; 0x41; 0xd4;
                        0xa7; 0x16; 0x44; 0x66; 0x55; 0x44; 0x00; 0x00])
    by (vm_compute; reflexivity).
  split; [exact H|].
  exact (proj2 (proj2 (proj2 (stringifyUUID_parseUUID _ _ _ H)))).
Defined.

(** X11. The outcomes of [parseUUID], for any [toLowerCase]: with
    [clean] the input without its hyphens, lowered, it fails with the
    length error exactly when [clean] is not 32 characters long, with
    the format error exactly when [clean] has 32 characters that are
    not all in 0-9a-f, and succeeds otherwise. The error of the byte
    loop, for a pair [parseInt] cannot read, is never raised. *)
Theorem parseUUID_outcomes (toLowerCase : jsstring -> jsstring) (uuidStr : jsstring) :
  (Index.parseUUID toLowerCase uuidStr
   = Raise (UUIDLengthError (length (toLowerCase (removeHyphens uuidStr))))
   <-> length (toLowerCase (removeHyphens uuidStr)) <> 32%nat)
  /\ (Index.parseUUID toLowerCase uuidStr = Raise UUIDFormatError
      <-> length (toLowerCase (removeHyphens uuidStr)) = 32%nat
          /\ ~ Forall (fun c => isLowerHex c = true)
                 (toLowerCase (removeHyphens uuidStr)))
  /\ ((exists bytes, Index.parseUUID toLowerCase uuidStr = Return bytes)
      <-> length (toLowerCase (removeHyphens uuidStr)) = 32%nat
          /\ Forall (fun c => isLowerHex c = true)
               (toLowerCase (removeHyphens uuidStr)))
  /\ (forall i hexByte,
        Index.parseUUID toLowerCase uuidStr <> Raise (HexByteError i hexByte)).
Proof.
  set (clean := toLowerCase (removeHyphens uuidStr)).
  assert (Hcases :
            (length clean <> 32%nat
             /\ Index.parseUUID toLowerCase uuidStr
                = Raise (UUIDLengthError (length clean)))
            \/ (length clean = 32%nat
                /\ ~ Forall (fun c => isLowerHex c = true) clean
                /\ Index.parseUUID toLowerCase uuidStr = Raise UUIDFormatError)
            \/ (length clean = 32%nat
                /\ Forall (fun c => isLowerHex c = true) clean
                /\ Index.parseUUID toLowerCase uuidStr
                   = Return (bytesOfHex clean))).
  { destruct (Nat.eq_dec (length clean) 32%nat) as [Hlen|Hlen].
    - destruct (forallb isLowerHex clean) eqn:E.
      + apply forallb_Forall_lowerHex in E.
        right. right. auto using parseUUID_hex.
      + assert (Hn : ~ Forall (fun c => isLowerHex c = true) clean).
        { intros Hall. apply forallb_Forall_lowerHex in Hall. congruence. }
        right. left. auto using parseUUID_not_hex.
    - left. auto using parseUUID_wrong_length. }
  destruct Hcases as [(Hlen & ->)|[(Hlen & Hn & ->)|(Hlen & Hall & ->)]].
  - split; [tauto|]. split; [split; [discriminate|tauto]|].
    split; [split; [intros [b Hb]; discriminate|tauto]|discriminate].
  - split; [split; [intros [= Heq]; lia|tauto]|]. split; [tauto|].
    split; [split; [intros [b Hb]; discriminate|tauto]|discriminate].
  - split; [split; [discriminate|tauto]|].
    split; [split; [discriminate|tauto]|].
    split; [split; [auto|eauto]|discriminate].
Qed.

(** X12. On an ASCII string [parseUUID] ignores hyphens and case: it
    looks only at the string without its hyphens, which must be exactly
    32 hexadecimal digits of either case, and returns the byte each pair
    of digits spells. *)
Theorem parseUUID_ascii (toLowerCase : jsstring -> jsstring)
    (Hlow : ascii_lowering toLowerCase)
    (uuidStr : jsstring) (Hascii : Forall isAscii uuidStr) :
  Index.parseUUID toLowerCase uuidStr
  = if negb (length (removeHyphens uuidStr) =? 32)%nat
    then Raise (UUIDLengthError (length (removeHyphens uuidStr)))
    else if forallb isHexDigit (removeHyphens uuidStr)
         then Return (bytesOfHex (removeHyphens uuidStr))
         else Raise UUIDFormatError.
Proof.
  pose proof (removeHyphens_ascii uuidStr Hascii) as Hclean.
  pose proof (Hlow _ Hclean) as Htl.
  assert (Hlen : length (toLowerCase (removeHyphens uuidStr))
                 = length (removeHyphens uuidStr))
    by (rewrite Htl; apply length_map).
  destruct (length (removeHyphens uuidStr) =? 32)%nat eqn:E; simpl.
  - apply Nat.eqb_eq in E.
    pose proof (lowered_hex _ Hclean) as Hhex. rewrite <- Htl in Hhex.
    destruct (forallb isHexDigit (removeHyphens uuidStr)) eqn:F.
    + rewrite parseUUID_hex; [|lia|apply forallb_Forall_lowerHex; exact Hhex].
      rewrite Htl. rewrite (lowered_bytes 16); auto.
    + apply parseUUID_not_hex; [lia|].
      intros Hall. apply forallb_Forall_lowerHex in Hall. congruence.
  - apply Nat.eqb_neq in E. rewrite parseUUID_wrong_length by lia.
    rewrite Hlen. reflexivity.
Qed.

Lemma parseUUID_ascii_witness :
  ascii_lowering asciiToLowerCase
  /\ Forall isAscii (str "-550E8400e29b41D4-a716446655440000-")
  /\ Index.parseUUID asciiToLowerCase (str "-550E8400e29b41D4-a716446655440000-")
     = Return [0x55; 0x0e; 0x84; 0x00; 0xe2; 0x9b; 0x41; 0xd4;
               0xa7; 0x16; 0x44; 0x66; 0x55; 0x44; 0x00; 0x00].
Proof.
  assert (H : Forall isAscii (str "-550E8400e29b41D4-a716446655440000-"))
    by (repeat (constructor; [reflexivity|]); constructor).
  split; [exact asciiToLowerCase_lowering|]. split; [exact H|].
  exact (parseUUID_ascii asciiToLowerCase asciiToLowerCase_lowering _ H).
Defined.

Lemma index_encode_Return_inv (toLowerCase : jsstring -> jsstring)
    (uuidStr b58 : jsstring) :
  Index.encode toLowerCase uuidStr = Return b58 ->
  exists bytes,
    Index.parseUUID toLowerCase uuidStr = Return bytes /\ encode bytes = Ok b58.
Proof.
  unfold Index.encode, Index.base58Encode. intros H.
  destruct (Index.parseUUID toLowerCase uuidStr) as [bytes|e]; [|discriminate].
  destruct (encode bytes) as [s|e] eqn:E; [|discriminate].
  injection H as <-. eauto.
Qed.

Lemma index_decode_Return_inv (b58 uuid : jsstring) :
  Index.decode b58 = Return uuid ->
  exists data,
    decode b58 = Ok data /\ length data = 16%nat /\ Forall is_byte data
    /\ uuid = hyphenate (hexOfBytes data).
Proof.
  unfold Index.decode, Index.base58Decode. intros H.
  destruct (decode b58) as [data|e] eqn:E; [|discriminate].
  destruct (decode_Ok_inv b58 data E) as (ds & _ & _ & _ & Hdata).
  assert (Hlen : length data = 16%nat) by (subst data; apply integerToBytes_length).
  assert (Hbytes : Forall is_byte data) by (subst data; apply integerToBytes_bytes).
  rewrite (stringifyUUID_hex data true Hlen Hbytes) in H.
  injection H as <-. eauto.
Qed.

(** X13. Decoding what the public [encode] returns gives the UUID in
    canonical form: if [encode] accepts a UUID string and returns [b58],
    then [b58] is 22 alphabet symbols and the public [decode] of it is
    the input without hyphens, lowered, laid out 8-4-4-4-12. *)
Theorem index_decode_encode (toLowerCase : jsstring -> jsstring)
    (uuidStr b58 : jsstring)
    (Henc : Index.encode toLowerCase uuidStr = Return b58) :
  Index.decode b58 = Return (hyphenate (toLowerCase (removeHyphens uuidStr)))
  /\ length b58 = 22%nat
  /\ Forall (fun c => c ∈ ALPHABET) b58.
Proof.
  destruct (index_encode_Return_inv _ _ _ Henc) as (bytes & Hparse & Hb58).
  destruct (parseUUID_Return_inv _ _ _ Hparse) as (Hlen & Hhex & Hbytes).
  destruct (bytesOfHex_spec 16 _ Hlen Hhex) as (H16 & Hbyte & Hback).
  rewrite <- Hbytes in *.
  destruct (roundtrip_buffer bytes H16 Hbyte) as (s & Hs & Hdec).
  assert (s = b58) by congruence. subst s.
  destruct (decode_Ok_inv b58 bytes Hdec) as (ds & Hlen22 & Hsp & _).
  split; [|split; [exact Hlen22|exact (spells_alphabet _ _ Hsp)]].
  unfold Index.decode, Index.base58Decode. rewrite Hdec.
  rewrite (stringifyUUID_hex bytes true H16 Hbyte), Hback. reflexivity.
Qed.

Lemma index_decode_encode_witness :
  Index.encode asciiToLowerCase (str "550E8400E29B41D4A716446655440000")
  = Return (str "BWBeN28Vb7cMEx7Ym8AUzs")
  /\ Index.decode (str "BWBeN28Vb7cMEx7Ym8AUzs")
     = Return (hyphenate (asciiToLowerCase
                 (removeHyphens (str "550E8400E29B41D4A716446655440000")))).
Proof.
  assert (H : Index.encode asciiToLowerCase (str "550E8400E29B41D4A716446655440000")
              = Return (str "BWBeN28Vb7cMEx7Ym8AUzs"))
    by (vm_compute; reflexivity).
  split; [exact H|].
  exact (proj1 (index_decode_encode _ _ _ H)).
Defined.

(** X14. Encoding what the public [decode] returns gives the string
    back: if [decode] accepts [b58] and returns the UUID text [uuid],
    then [uuid] has 36 characters and the public [encode] of it is
    [b58]. *)
Theorem index_encode_decode (toLowerCase : jsstring -> jsstring)
    (Hlow : ascii_lowering toLowerCase)
    (b58 uuid : jsstring)
    (Hdec : Index.decode b58 = Return uuid) :
  Index.encode toLowerCase uuid = Return b58 /\ length uuid = 36%nat.
Proof.
  destruct (index_decode_Return_inv _ _ Hdec) as (data & Hd & Hlen & Hbytes & ->).
  destruct (parseUUID_stringifyUUID toLowerCase Hlow data true Hlen Hbytes)
    as (u & Hu & Hparse).
  rewrite (stringifyUUID_hex data true Hlen Hbytes) in Hu. injection Hu as <-.
  split.
  - unfold Index.encode, Index.base58Encode.
    rewrite Hparse, (encode_of_decode b58 data Hd). reflexivity.
  - apply hyphenate_layout. rewrite hexOfBytes_length, Hlen. reflexivity.
Qed.

Lemma index_encode_decode_witness :
  ascii_lowering asciiToLowerCase
  /\ Index.decode (str "YcVfxkQb6JRzqk5kF2tNLu")
     = Return (str "ffffffff-ffff-ffff-ffff-fffffffffffe")
  /\ Index.encode asciiToLowerCase (str "ffffffff-ffff-ffff-ffff-fffffffffffe")
     = Return (str "YcVfxkQb6JRzqk5kF2tNLu").
Proof.
  assert (H : Index.decode (str "YcVfxkQb6JRzqk5kF2tNLu")
              = Return (str "ffffffff-ffff-ffff-ffff-fffffffffffe"))
    by (vm_compute; reflexivity).
  split; [exact asciiToLowerCase_lowering|]. split; [exact H|].
  exact (proj1 (index_encode_decode asciiToLowerCase asciiToLowerCase_lowering
                  _ _ H)).
Defined.

(** X15. The public [encode] fails exactly when [parseUUID] does; what
    it throws is then an InvalidUUIDError carrying the input string and,
    as its cause, the length or the format error of [parseUUID]. The
    Base58 module never fails under it. *)
Theorem index_encode_failure (toLowerCase : jsstring -> jsstring)
    (uuidStr : jsstring) :
  ((exists e, Index.encode toLowerCase uuidStr = Raise e)
   <-> (exists cause, Index.parseUUID toLowerCase uuidStr = Raise cause))
  /\ (forall e,
        Index.encode toLowerCase uuidStr = Raise e ->
        exists cause,
          e = InvalidUUIDError uuidStr (Some cause)
          /\ Index.parseUUID toLowerCase uuidStr = Raise cause
          /\ (cause = UUIDLengthError
                        (length (toLowerCase (removeHyphens uuidStr)))
              \/ cause = UUIDFormatError)).
Proof.
  assert (Hraise : forall e,
             Index.encode toLowerCase uuidStr = Raise e ->
             exists cause,
               e = InvalidUUIDError uuidStr (Some cause)
               /\ Index.parseUUID toLowerCase uuidStr = Raise cause).
  { unfold Index.encode, Index.base58Encode. intros e He.
    destruct (Index.parseUUID toLowerCase uuidStr) as [bytes|cause] eqn:Hp.
    - destruct (parseUUID_Return_inv _ _ _ Hp) as (Hlen & Hhex & ->).
      destruct (bytesOfHex_spec 16 _ Hlen Hhex) as (H16 & Hbyte & _).
      destruct (roundtrip_buffer _ H16 Hbyte) as (s & Hs & _).
      rewrite Hs in He. discriminate.
    - injection He as <-. eauto. }
  split.
  - split.
    + intros [e He]. destruct (Hraise e He) as (cause & _ & Hc). eauto.
    + intros [cause Hc]. unfold Index.encode. rewrite Hc. eauto.
  - intros e He. destruct (Hraise e He) as (cause & -> & Hc).
    exists cause. split; [reflexivity|]. split; [exact Hc|].
    destruct (Nat.eq_dec (length (toLowerCase (removeHyphens uuidStr))) 32%nat)
      as [Hlen|Hlen].
    + right.
      destruct (forallb isLowerHex (toLowerCase (removeHyphens uuidStr))) eqn:E.
      * apply forallb_Forall_lowerHex in E.
        rewrite parseUUID_hex in Hc by assumption. discriminate.
      * rewrite parseUUID_not_hex in Hc; [congruence|exact Hlen|].
        intros Hall. apply forallb_Forall_lowerHex in Hall. congruence.
    + left. rewrite parseUUID_wrong_length in Hc by exact Hlen. congruence.
Qed.

(** X16. The public [decode] fails exactly when the Base58 [decode]
    does; what it throws is then an InvalidB58Error carrying the input
    string and, as its cause, the error of the Base58 module.
    [stringifyUUID] never fails under it. *)
Theorem index_decode_failure (b58 : jsstring) :
  ((exists e, Index.decode b58 = Raise e) <-> (exists cause, decode b58 = Throw cause))
  /\ (forall e,
        Index.decode b58 = Raise e ->
        exists cause,
          e = InvalidB58Error b58 (Some (Base58Error cause))
          /\ decode b58 = Throw cause).
Proof.
  assert (Hraise : forall e,
             Index.decode b58 = Raise e ->
             exists cause,
               e = InvalidB58Error b58 (Some (Base58Error cause))
               /\ decode b58 = Throw cause).
  { unfold Index.decode, Index.base58Decode. intros e He.
    destruct (decode b58) as [data|cause] eqn:Hd.
    - destruct (decode_Ok_inv b58 data Hd) as (ds & _ & _ & _ & Hdata).
      rewrite stringifyUUID_hex in He
        by (subst data; apply integerToBytes_length || apply integerToBytes_bytes).
      discriminate.
    - injection He as <-. eauto. }
  split; [split|exact Hraise].
  - intros [e He]. destruct (Hraise e He) as (cause & _ & Hc). eauto.
  - intros [cause Hc]. unfold Index.decode, Index.base58Decode. rewrite Hc. eauto.
Qed.

Lemma version_nibble (r : Z) :
  0 <= r < 16 ->
  Z.shiftr (Z.land (0x40 + r) 0xF0) 4 = 4 /\ Z.land (0x40 + r) 0x0F = r.
Proof. intros H. each_nibble H; split; reflexivity. Qed.

Lemma variant_bits_of (r : Z) :
  0 <= r < 64 ->
  Z.shiftr (Z.land (0x80 + r) 0xC0) 6 = 2 /\ Z.land (0x80 + r) 0x3F = r.
Proof.
  intros Hr.
  assert (Hall : forallb (fun n =>
            (Z.shiftr (Z.land (0x80 + Z.of_nat n) 0xC0) 6 =? 2)
            && (Z.land (0x80 + Z.of_nat n) 0x3F =? Z.of_nat n))
            (seq 0 64) = true) by (vm_compute; reflexivity).
  rewrite forallb_forall in Hall.
  specialize (Hall (Z.to_nat r) ltac:(apply in_seq; lia)).
  rewrite Z2Nat.id in Hall by lia.
  apply andb_prop in Hall as [H1 H2].
  apply Z.eqb_eq in H1, H2. auto.
Qed.

Lemma generateUUIDv4_shape (random : list Z) :
  length random = 16%nat -> Forall is_byte random ->
  length (Index.generateUUIDv4 random) = 16%nat
  /\ Forall is_byte (Index.generateUUIDv4 random)
  /\ Index.generateUUIDv4 random !! 6%nat
     = Some (0x40 + getByte random 6 mod 16)
  /\ Index.generateUUIDv4 random !! 8%nat
     = Some (0x80 + getByte random 8 mod 64)
  /\ (forall i : nat,
        i <> 6%nat -> i <> 8%nat ->
        Index.generateUUIDv4 random !! i = random !! i).
Proof.
  intros Hlen Hbytes. rewrite generateUUIDv4_insert.
  pose proof (Z.mod_pos_bound (getByte random 6) 16 ltac:(lia)) as H6.
  pose proof (Z.mod_pos_bound (getByte random 8) 64 ltac:(lia)) as H8.
  split; [rewrite !length_insert; exact Hlen|].
  split.
  { apply Forall_insert; [apply Forall_insert; [exact Hbytes|]|];
      unfold is_byte, in_range; lia. }
  split.
  { rewrite list_lookup_insert_ne by lia. apply list_lookup_insert_eq. lia. }
  split.
  { apply list_lookup_insert_eq. rewrite length_insert. lia. }
  intros i Hi6 Hi8. rewrite !list_lookup_insert_ne by lia. reflexivity.
Qed.

(** X17. [generateUUIDv4] turns 16 random bytes into a version 4,
    variant 1 UUID: the result is again 16 bytes, the high nibble of
    byte 6 is 4 and the two top bits of byte 8 are 10, the other bits of
    these two bytes and all other bytes are those of the random
    source. *)
Theorem generateUUIDv4_bits (random : list Z)
    (Hlen : length random = 16%nat) (Hbytes : Forall is_byte random) :
  length (Index.generateUUIDv4 random) = 16%nat
  /\ Forall is_byte (Index.generateUUIDv4 random)
  /\ (exists b6,
        Index.generateUUIDv4 random !! 6%nat = Some b6
        /\ Z.shiftr (Z.land b6 0xF0) 4 = 4
        /\ Z.land b6 0x0F = Z.land (getByte random 6) 0x0F)
  /\ (exists b8,
        Index.generateUUIDv4 random !! 8%nat = Some b8
        /\ Z.shiftr (Z.land b8 0xC0) 6 = 2
        /\ Z.land b8 0x3F = Z.land (getByte random 8) 0x3F)
  /\ (forall i : nat,
        i <> 6%nat -> i <> 8%nat ->
        Index.generateUUIDv4 random !! i = random !! i).
Proof.
  destruct (generateUUIDv4_shape random Hlen Hbytes)
    as (H16 & Hbyte & Hb6 & Hb8 & Hrest).
  pose proof (Z.mod_pos_bound (getByte random 6) 16 ltac:(lia)) as H6.
  pose proof (Z.mod_pos_bound (getByte random 8) 64 ltac:(lia)) as H8.
  split; [exact H16|]. split; [exact Hbyte|].
  split.
  { exists (0x40 + getByte random 6 mod 16).
    split; [exact Hb6|]. split.
    - apply version_nibble. exact H6.
    - rewrite (proj2 (version_nibble _ H6)).
      change 0x0F with (Z.ones 4). rewrite Z.land_ones by lia. reflexivity. }
  split; [|exact Hrest].
  exists (0x80 + getByte random 8 mod 64).
  split; [exact Hb8|]. split.
  - apply variant_bits_of. exact H8.
  - rewrite (proj2 (variant_bits_of _ H8)).
    change 0x3F with (Z.ones 6). rewrite Z.land_ones by lia. reflexivity.
Qed.

Lemma generateUUIDv4_bits_witness :
  length (replicate 16 0xFF) = 16%nat
  /\ Forall is_byte (replicate 16 0xFF)
  /\ Index.generateUUIDv4 (replicate 16 0xFF)
     = [0xFF; 0xFF; 0xFF; 0xFF; 0xFF; 0xFF; 0x4F; 0xFF;
        0xBF; 0xFF; 0xFF; 0xFF; 0xFF; 0xFF; 0xFF; 0xFF]
  /\ length (Index.generateUUIDv4 (replicate 16 0xFF)) = 16%nat.
Proof.
  assert (H : Forall is_byte (replicate 16 0xFF)) by (simpl; bytes_ok).
  split; [reflexivity|]. split; [exact H|]. split; [vm_compute; reflexivity|].
  exact (proj1 (generateUUIDv4_bits (replicate 16 0xFF) eq_refl H)).
Defined.

(** X18. [generate] never fails on 16 random bytes: it returns 22
    alphabet symbols, which the Base58 [decode] maps back to the bytes
    of [generateUUIDv4] and the public [decode] to a 36-character UUID
    whose version digit, at position 14, is 4 and whose variant digit,
    at position 19, is one of 8, 9, a, b. *)
Theorem generate_valid (random : list Z)
    (Hlen : length random = 16%nat) (Hbytes : Forall is_byte random) :
  exists b58 uuid,
    Index.generate random = Ok b58
    /\ length b58 = 22%nat
    /\ Forall (fun c => c ∈ ALPHABET) b58
    /\ decode b58 = Ok (Index.generateUUIDv4 random)
    /\ Index.decode b58 = Return uuid
    /\ length uuid = 36%nat
    /\ uuid !! 14%nat = head (str "4")
    /\ exists v, uuid !! 19%nat = Some v /\ v ∈ str "89ab".
Proof.
  destruct (generateUUIDv4_shape random Hlen Hbytes)
    as (H16 & Hbyte & Hb6 & Hb8 & _).
  pose proof (Z.mod_pos_bound (getByte random 6) 16 ltac:(lia)) as H6.
  pose proof (Z.mod_pos_bound (getByte random 8) 64 ltac:(lia)) as H8.
  set (bytes := Index.generateUUIDv4 random) in *.
  destruct (roundtrip_buffer bytes H16 Hbyte) as (b58 & Henc & Hdec).
  destruct (decode_Ok_inv b58 bytes Hdec) as (ds & Hlen22 & Hsp & _).
  assert (Hlen32 : length (hexOfBytes bytes) = 32%nat)
    by (rewrite hexOfBytes_length, H16; reflexivity).
  destruct (hyphenate_layout _ Hlen32) as (H36 & _ & _ & _ & _ & H14 & H19).
  exists b58, (hyphenate (hexOfBytes bytes)).
  split; [exact Henc|]. split; [exact Hlen22|].
  split; [exact (spells_alphabet _ _ Hsp)|]. split; [exact Hdec|].
  split.
  { unfold Index.decode, Index.base58Decode. rewrite Hdec.
    rewrite (stringifyUUID_hex bytes true H16 Hbyte). reflexivity. }
  split; [exact H36|].
  split.
  - pose proof (proj1 (hexOfBytes_lookup bytes 6 _ Hb6)) as Hd6.
    change (2 * 6)%nat with 12%nat in Hd6. rewrite H14, Hd6.
    replace ((0x40 + getByte random 6 mod 16) / 16) with 4
      by (apply (Z.div_unique _ 16 4 (getByte random 6 mod 16)); lia).
    reflexivity.
  - pose proof (proj1 (hexOfBytes_lookup bytes 8 _ Hb8)) as Hd8.
    change (2 * 8)%nat with 16%nat in Hd8. rewrite H19, Hd8.
    eexists. split; [reflexivity|].
    set (q := (0x80 + getByte random 8 mod 64) / 16).
    assert (Hq : 8 <= q < 12).
    { unfold q. split;
        [apply Z.div_le_lower_bound; lia|apply Z.div_lt_upper_bound; lia]. }
    assert (Hc : q = 8 \/ q = 9 \/ q = 10 \/ q = 11) by lia.
    destruct Hc as [Hc | [Hc | [Hc | Hc]]]; rewrite Hc;
      apply (bool_decide_unpack _); vm_compute; reflexivity.
Qed.

Lemma generate_valid_witness :
  length (replicate 16 0) = 16%nat
  /\ Forall is_byte (replicate 16 0)
  /\ exists b58 uuid,
       Index.generate (replicate 16 0) = Ok b58
       /\ Index.decode b58 = Return uuid
       /\ uuid !! 14%nat = head (str "4").
Proof.
  assert (H : Forall is_byte (replicate 16 0)) by (simpl; bytes_ok).
  split; [reflexivity|]. split; [exact H|].
  destruct (generate_valid (replicate 16 0) eq_refl H)
    as (b58 & uuid & Hgen & _ & _ & _ & Hdec & _ & H14 & _).
  exists b58, uuid. auto.
Defined.

(** X19. Two UUID strings that the public [encode] accepts get the same
    encoding exactly when they are the same once hyphens are removed and
    case is lowered. *)
Theorem index_encode_same (toLowerCase : jsstring -> jsstring)
    (uuid1 uuid2 b1 b2 : jsstring)
    (H1 : Index.encode toLowerCase uuid1 = Return b1)
    (H2 : Index.encode toLowerCase uuid2 = Return b2) :
  b1 = b2
  <-> toLowerCase (removeHyphens uuid1) = toLowerCase (removeHyphens uuid2).
Proof.
  destruct (index_encode_Return_inv _ _ _ H1) as (bytes1 & Hp1 & He1).
  destruct (index_encode_Return_inv _ _ _ H2) as (bytes2 & Hp2 & He2).
  destruct (parseUUID_Return_inv _ _ _ Hp1) as (Hl1 & Hh1 & Hb1).
  destruct (parseUUID_Return_inv _ _ _ Hp2) as (Hl2 & Hh2 & Hb2).
  destruct (bytesOfHex_spec 16 _ Hl1 Hh1) as (H16a & Hbytea & Hbacka).
  destruct (bytesOfHex_spec 16 _ Hl2 Hh2) as (H16b & Hbyteb & Hbackb).
  rewrite <- Hb1 in *. rewrite <- Hb2 in *.
  split.
  - intros <-.
    destruct (roundtrip_buffer bytes1 H16a Hbytea) as (s1 & Hs1 & Hd1).
    destruct (roundtrip_buffer bytes2 H16b Hbyteb) as (s2 & Hs2 & Hd2).
    assert (bytes1 = bytes2) by congruence. congruence.
  - intros Heq. assert (bytes1 = bytes2) by congruence. congruence.
Qed.

Lemma index_encode_same_witness :
  Index.encode asciiToLowerCase (str "550E8400-E29B-41D4-A716-446655440000")
  = Return (str "BWBeN28Vb7cMEx7Ym8AUzs")
  /\ Index.encode asciiToLowerCase (str "550e8400e29b41d4a716446655440000")
     = Return (str "BWBeN28Vb7cMEx7Ym8AUzs")
  /\ asciiToLowerCase (removeHyphens (str "550E8400-E29B-41D4-A716-446655440000"))
     = asciiToLowerCase (removeHyphens (str "550e8400e29b41d4a716446655440000")).
Proof.
  assert (H1 : Index.encode asciiToLowerCase
                 (str "550E8400-E29B-41D4-A716-446655440000")
               = Return (str "BWBeN28Vb7cMEx7Ym8AUzs"))
    by (vm_compute; reflexivity).
  assert (H2 : Index.encode asciiToLowerCase
                 (str "550e8400e29b41d4a716446655440000")
               = Return (str "BWBeN28Vb7cMEx7Ym8AUzs"))
    by (vm_compute; reflexivity).
  split; [exact H1|]. split; [exact H2|].
  exact (proj1 (index_encode_same _ _ _ _ _ H1 H2) eq_refl).
Defined.

(** ** Padding *)

Lemma digits_leading_zeros (ds : list Z) (n : nat) :
  Forall is_digit ds -> (n <= length ds)%nat ->
  (take n ds = replicate n 0
   <-> value_from 0 ds < BASE58 ^ Z.of_nat (length ds - n)).
Proof.
  intros Hdig Hn.
  pose proof (Forall_take _ n _ Hdig) as Hhi.
  pose proof (Forall_drop _ n _ Hdig) as Hlo.
  pose proof (positional_bound BASE58 ltac:(reflexivity) _ Hhi) as Bhi.
  pose proof (positional_bound BASE58 ltac:(reflexivity) _ Hlo) as Blo.
  rewrite length_drop in Blo.
  assert (Hval : value_from 0 ds
                 = positional BASE58 0 (take n ds)
                   * BASE58 ^ Z.of_nat (length ds - n)
                   + positional BASE58 0 (drop n ds)).
  { unfold value_from. rewrite <- (take_drop n ds) at 1.
    rewrite positional_app, positional_acc, length_drop by reflexivity.
    reflexivity. }
  assert (Hpos : 0 < BASE58 ^ Z.of_nat (length ds - n))
    by (apply Z.pow_pos_nonneg; [reflexivity|lia]).
  split.
  - intros Hz. rewrite Hval, Hz.
    replace (positional BASE58 0 (replicate n 0)) with 0; [lia|].
    rewrite <- (app_nil_r (replicate n 0)).
    rewrite positional_zeros by reflexivity. reflexivity.
  - intros Hlt.
    assert (Hzero : positional BASE58 0 (take n ds) = 0) by nia.
    apply (positional_inj BASE58 ltac:(reflexivity)).
    + rewrite length_take, length_replicate. lia.
    + exact Hhi.
    + apply Forall_replicate. unfold in_range, BASE58. lia.
    + rewrite Hzero. rewrite <- (app_nil_r (replicate n 0)).
      rewrite positional_zeros by reflexivity. reflexivity.
Qed.

Lemma spells_leading_ones (s : jsstring) (ds : list Z) (n : nat) :
  spells s ds -> (take n s = replicate n 49%N <-> take n ds = replicate n 0).
Proof.
  intros Hsp. revert n.
  induction Hsp as [|c d s ds Hcd _ IH]; intros [|n]; simpl; try tauto;
    try (split; discriminate).
  assert (Hc : c = 49%N <-> d = 0).
  { split.
    - intros ->. vm_compute in Hcd. congruence.
    - intros ->. apply digit_of_symbol in Hcd as [_ Hcd].
      vm_compute in Hcd. congruence. }
  specialize (IH n). split; intros [= H1 H2]; f_equal; tauto.
Qed.

(** X20. The padding of [encode]: for a 16-byte buffer and [n] up to
    22, the encoding begins with [n] copies of the symbol 1 exactly
    when the big-endian value of the buffer is below 58^(22-n). *)
Theorem encode_leading_ones (data : list Z) (n : nat)
    (Hlen : length data = 16%nat) (Hbytes : Forall is_byte data)
    (Hn : (n <= 22)%nat) :
  exists s,
    encode data = Ok s
    /\ (take n s = replicate n 49%N
        <-> be_value data < BASE58 ^ Z.of_nat (22 - n)).
Proof.
  pose proof (be_value_bound data Hlen Hbytes) as Hv.
  destruct (digits22_spec (be_value data) Hv) as (Hlen22 & Hdig & Hval).
  pose proof (join_symbols_spells _ Hdig) as Hsp.
  exists (join_symbols (digits22 (be_value data))).
  split; [apply encode_digits; assumption|].
  rewrite (spells_leading_ones _ _ n Hsp).
  rewrite (digits_leading_zeros _ n Hdig) by lia.
  rewrite Hlen22, Hval. reflexivity.
Qed.

Lemma encode_leading_ones_witness :
  length (replicate 15 0 ++ [9]) = 16%nat
  /\ Forall is_byte (replicate 15 0 ++ [9])
  /\ (21 <= 22)%nat
  /\ exists s,
       encode (replicate 15 0 ++ [9]) = Ok s
       /\ (take 21 s = replicate 21 49%N
           <-> be_value (replicate 15 0 ++ [9]) < BASE58 ^ Z.of_nat (22 - 21)).
Proof.
  assert (Hb : Forall is_byte (replicate 15 0 ++ [9])) by (simpl; bytes_ok).
  assert (Hn : (21 <= 22)%nat) by lia.
  split; [reflexivity|]. split; [exact Hb|]. split; [exact Hn|].
  exact (encode_leading_ones (replicate 15 0 ++ [9]) 21 eq_refl Hb Hn).
Defined.
